(** * scraperadvanced: the fetch / extract / store pipeline of [scrap.PY]

    A shallow embedding of [AdvancedWebScraper] and of [main]'s input loop.

    - Python [str] values are [string]s whose characters are read as code
      points below 256; Python [int]s are [Z].
    - [self.results] is a [dict] and is a [gmap string (list string)].
    - The coroutines [fetch_url] and [extract_data] are programs of a free
      monad [prog]: a tree of the actions the coroutine performs on the
      outside world (the GET request, [asyncio.sleep], the logger, the
      database cursor, the shared [self.results]).  [raise] is a leaf of the
      tree and [try ... except Exception] a transformer of trees.
    - A program is run against two oracles: what the network answers to the
      n-th request of a task, and whether the n-th call of [insert_data]
      raises.  [run] executes one coroutine alone; [gather] executes a pool
      of them the way the asyncio event loop does, switching tasks only where
      a coroutine awaits the network or a sleep. *)

From stdpp Require Import gmap strings list pretty.
From Stdlib Require Import ZArith Ascii.

Set Warnings "-register-all".

Open Scope Z_scope.

(** ** Exceptions, responses, rows *)

Inductive exn_kind :=
| TimeoutError      (* asyncio.TimeoutError: the 10 s timeout of the GET *)
| TransportError    (* aiohttp.ClientError: connection refused, reset, DNS *)
| PayloadError      (* raised while reading or decoding the response body *)
| StorageError      (* psycopg2.Error *)
| KeyError
| ValueError
| EOFError.

(** An exception object: its class and [str(e)]. *)
Record exn := Exn { exn_kind_of : exn_kind; exn_msg : string }.

Inductive result (A : Type) : Type :=
| Ok (a : A)
| Err (e : exn).
Arguments Ok {A} a.
Arguments Err {A} e.

(** What one [session.get(url, ...)] does: it raises, or it yields a response
    with a status and a body; [await response.text()] may itself raise. *)
Inductive attempt :=
| GetRaises (e : exn)
| Response (status : Z) (text : result string).

(** The response object bound by [async with session.get(...) as response]. *)
Record response := Resp { status : Z; text : result string }.

Record row := Row { row_url : string; row_category : string; row_content : string }.

Inductive level := INFO | WARNING | ERROR.

(** ** Coroutines as trees of actions *)

Inductive prog (A : Type) : Type :=
| Ret (a : A)
| Raise (e : exn)
| Get (url : string) (k : attempt -> prog A)           (* await session.get *)
| Sleep (secs : Z) (k : prog A)                        (* await asyncio.sleep *)
| Log (lvl : level) (msg : string) (k : prog A)        (* self.logger.<lvl>(msg) *)
| DbInsert (r : row) (k : result unit -> prog A)       (* cursor.execute(INSERT); conn.commit() *)
| Append (key item : string) (k : result unit -> prog A). (* self.results[key].append(item) *)
Arguments Ret {A} a.
Arguments Raise {A} e.
Arguments Get {A} url k.
Arguments Sleep {A} secs k.
Arguments Log {A} lvl msg k.
Arguments DbInsert {A} r k.
Arguments Append {A} key item k.

Fixpoint bind {A B : Type} (p : prog A) (f : A -> prog B) : prog B :=
  match p with
  | Ret a => f a
  | Raise e => Raise e
  | Get url k => Get url (fun x => bind (k x) f)
  | Sleep secs k => Sleep secs (bind k f)
  | Log lvl msg k => Log lvl msg (bind k f)
  | DbInsert r k => DbInsert r (fun x => bind (k x) f)
  | Append key item k => Append key item (fun x => bind (k x) f)
  end.

(** [try: p except Exception as e: h e].  Every exception of the model is a
    subclass of [Exception]. *)
Fixpoint try_except {A : Type} (p : prog A) (h : exn -> prog A) : prog A :=
  match p with
  | Ret a => Ret a
  | Raise e => h e
  | Get url k => Get url (fun x => try_except (k x) h)
  | Sleep secs k => Sleep secs (try_except k h)
  | Log lvl msg k => Log lvl msg (try_except k h)
  | DbInsert r k => DbInsert r (fun x => try_except (k x) h)
  | Append key item k => Append key item (fun x => try_except (k x) h)
  end.

Declare Scope prog_scope.
Delimit Scope prog_scope with prog.
Notation "x <- p ;; q" := (bind p (fun x => q))
  (at level 100, p at next level, right associativity) : prog_scope.
Notation "p ;; q" := (bind p (fun _ => q))
  (at level 100, right associativity) : prog_scope.
Open Scope prog_scope.

(** What the body of a [for] loop inside a function does when it ends:
    fall through to the next iteration, or [return r] from the function. *)
Inductive flow (R : Type) : Type :=
| Continue
| Return (r : R).
Arguments Continue {R}.
Arguments Return {R} r.

(** [for a in l: body a] followed by [after], inside a function that
    returns an [R]. *)
Fixpoint for_in {A R : Type} (l : list A) (body : A -> prog (flow R))
    (after : prog R) : prog R :=
  match l with
  | [] => after
  | a :: l' =>
      f <- body a;;
      match f with
      | Return r => Ret r
      | Continue => for_in l' body after
      end
  end.

(** [for a in l: body a] with no [return] in the body. *)
Fixpoint for_each {A : Type} (l : list A) (body : A -> prog unit) : prog unit :=
  match l with
  | [] => Ret tt
  | a :: l' => body a;; for_each l' body
  end.

(** The primitive actions as programs. *)
Definition session_get (url : string) : prog response :=
  Get url (fun a =>
    match a with
    | GetRaises e => Raise e
    | Response status text => Ret (Resp status text)
    end).

Definition response_text (r : response) : prog string :=
  match text r with
  | Ok body => Ret body
  | Err e => Raise e
  end.

Definition sleep (secs : Z) : prog unit := Sleep secs (Ret tt).

Definition log (lvl : level) (msg : string) : prog unit := Log lvl msg (Ret tt).

Definition raising (x : result unit) : prog unit :=
  match x with
  | Ok _ => Ret tt
  | Err e => Raise e
  end.

Definition results_append (key item : string) : prog unit :=
  Append key item raising.

(** Python truthiness of a string, and of a string or [None]: the empty
    string and [None] are falsy. *)
Definition nonempty (s : string) : bool :=
  match s with
  | EmptyString => false
  | String _ _ => true
  end.

Definition truthy (o : option string) : bool :=
  match o with
  | Some s => nonempty s
  | None => false
  end.

(** ** [AdvancedWebScraper.insert_data] (lines 47-52)

    The [INSERT] and the [commit] are one storage action: it makes the row
    durable, or it raises and the table is as before. *)
Definition insert_data (url category content : string) : prog unit :=
  DbInsert (Row url category content) raising.

(** ** [AdvancedWebScraper.fetch_url] (lines 54-70) *)

Definition max_retries : Z := 3.

(** The two f-strings of the loop. *)
Definition retry_warning (url : string) (status retry : Z) : string :=
  "Failed to fetch " +:+ url +:+ ". HTTP Status Code: " +:+ pretty status
  +:+ ". Retrying in " +:+ pretty (2 ^ retry) +:+ " seconds...".

Definition request_error (url : string) (e : exn) : string :=
  "Error during request to " +:+ url +:+ ": " +:+ exn_msg e.

(** The body of [for retry in range(max_retries)]: the [try] block and its
    [except Exception as e] handler. *)
Definition fetch_attempt (url : string) (retry : Z) : prog (flow (option string)) :=
  try_except
    (response <- session_get url;;
     if bool_decide (status response = 200) then
       body <- response_text response;;
       Ret (Return (Some body))
     else
       log WARNING (retry_warning url (status response) retry);;
       sleep (2 ^ retry);;
       Ret Continue)
    (fun e =>
       log ERROR (request_error url e);;
       if bool_decide (retry = max_retries - 1) then Ret (Return None)
       else Ret Continue).

Definition fetch_url (url : string) : prog (option string) :=
  for_in (seqZ 0 max_retries) (fetch_attempt url) (Ret None).

(** ** The parsed page

    What [BeautifulSoup(html, "html.parser")] returns: the forest of the
    document, an element carrying its attribute [dict]. *)

Inductive node :=
| Text (s : string)
| Comment (s : string)     (* a comment, a declaration, a processing instruction *)
| Element (name : string) (attrs : gmap string string) (children : list node).

(** [tag.find_all(names)]: the descendants with one of the names, in
    document order. *)
Fixpoint find_all_node (names : list string) (n : node) : list node :=
  match n with
  | Element name attrs children =>
      (if bool_decide (name ∈ names) then [n] else [])
        ++ flat_map (find_all_node names) children
  | _ => []
  end.

Definition find_all (names : list string) (soup : list node) : list node :=
  flat_map (find_all_node names) soup.

(** [tag.text]: the strings below the tag, concatenated; comments are left
    out. *)
Fixpoint node_text (n : node) : string :=
  match n with
  | Text s => s
  | Comment _ => ""
  | Element _ _ children => String.concat "" (map node_text children)
  end.

(** [tag.get(key)]. *)
Definition tag_get (n : node) (key : string) : option string :=
  match n with
  | Element _ attrs _ => attrs !! key
  | _ => None
  end.

(** [str.isspace] on the code points below 256. *)
Definition py_isspace (c : ascii) : bool :=
  let n := Z.of_nat (nat_of_ascii c) in
  bool_decide (9 ≤ n ≤ 13) || bool_decide (28 ≤ n ≤ 32)
  || bool_decide (n = 133) || bool_decide (n = 160).

Fixpoint lstrip (s : string) : string :=
  match s with
  | String c s' => if py_isspace c then lstrip s' else s
  | EmptyString => EmptyString
  end.

(** [str.strip()]. *)
Definition strip (s : string) : string :=
  String.rev (lstrip (String.rev (lstrip s))).

(** The two third-party functions the extraction calls. *)
Class WebLib := {
  BeautifulSoup : string -> list node;
  urljoin : string -> string -> string;
}.

(** ** A model of the two third-party functions

    [html_parser] follows [BeautifulSoup(html, "html.parser")] and
    [py_urljoin] follows [urllib.parse.urljoin] on the markup and the URLs
    described at each definition. *)

Fixpoint span (p : ascii -> bool) (s : string) : string * string :=
  match s with
  | String c s' =>
      if p c then let '(a, b) := span p s' in (String c a, b) else (EmptyString, s)
  | EmptyString => (EmptyString, EmptyString)
  end.

Fixpoint sdrop (n : nat) (s : string) : string :=
  match n, s with
  | S n', String _ s' => sdrop n' s'
  | _, _ => s
  end.

(** [s.partition(pat)] when [pat] occurs in [s]: what is before its first
    occurrence and what is after. *)
Fixpoint cut (pat s : string) : option (string * string) :=
  if String.prefix pat s then Some (EmptyString, sdrop (String.length pat) s)
  else match s with
       | String c s' =>
           match cut pat s' with
           | Some (a, b) => Some (String c a, b)
           | None => None
           end
       | EmptyString => None
       end.

(** [s.split(sep)] for a separator of one character. *)
Fixpoint split_on (sep : ascii) (s : string) : list string :=
  match s with
  | EmptyString => [EmptyString]
  | String c s' =>
      if Ascii.eqb c sep then EmptyString :: split_on sep s'
      else match split_on sep s' with
           | w :: ws => String c w :: ws
           | [] => [String c EmptyString]
           end
  end.

Definition code (c : ascii) : Z := Z.of_nat (nat_of_ascii c).

Definition is_alpha (c : ascii) : bool :=
  bool_decide (65 ≤ code c ≤ 90) || bool_decide (97 ≤ code c ≤ 122).

Definition is_digit (c : ascii) : bool := bool_decide (48 ≤ code c ≤ 57).

Definition starts_alpha (s : string) : bool :=
  match s with
  | String c _ => is_alpha c
  | EmptyString => false
  end.

(** [str.lower] on the ASCII letters. *)
Definition lower_char (c : ascii) : ascii :=
  if bool_decide (65 ≤ code c ≤ 90) then ascii_of_nat (nat_of_ascii c + 32) else c.

Fixpoint lower (s : string) : string :=
  match s with
  | String c s' => String (lower_char c) (lower s')
  | EmptyString => EmptyString
  end.

Definition one_of (chars : string) (c : ascii) : bool :=
  bool_decide (c ∈ String.list_ascii_of_string chars).

(** *** [html.parser] and the tree builder of [bs4] *)

Inductive token :=
| TData (s : string)
| TStart (name : string) (attrs : list (string * string))
| TStartEnd (name : string) (attrs : list (string * string))
| TEnd (name : string)
| TComment (s : string).

(** The white space of [html.parser]'s regular expressions ([\s] on a
    [str]), and the characters that end a tag name. *)
Definition html_space (c : ascii) : bool := py_isspace c.

Definition name_end (c : ascii) : bool :=
  bool_decide (code c ∈ [9; 10; 12; 13; 32; 0]) || one_of "/>" c.

(** The characters of the name of an end tag that is well formed. *)
Definition end_name_char (c : ascii) : bool :=
  is_alpha c || is_digit c || one_of "-.:_" c.

Definition is_quote (c : ascii) : bool :=
  Ascii.eqb c "'" || Ascii.eqb c "034".

(** The attributes of a start tag, from what follows the tag name up to its
    [>]: [name], [name=value], [name="value"], [name='value'], the names in
    lower case.  The result is the attributes, whether the tag ends in [/>],
    and what follows the tag; [None] when the tag has no [>]. *)
Fixpoint parse_attrs (fuel : nat) (s : string)
    : option (list (string * string) * bool * string) :=
  match fuel with
  | O => None
  | S fuel' =>
      match s with
      | EmptyString => None
      | String c s' =>
          if Ascii.eqb c ">" then Some ([], false, s')
          else if Ascii.eqb c "/" && String.prefix ">" s' then Some ([], true, sdrop 1 s')
          else if html_space c || Ascii.eqb c "/" then parse_attrs fuel' s'
          else
            let '(name, after_name) :=
              span (fun x => negb (html_space x || one_of "/=>" x)) s' in
            let name := lower (String c name) in
            let more value rest :=
              match parse_attrs fuel' rest with
              | Some (attrs, e, rest') => Some ((name, value) :: attrs, e, rest')
              | None => None
              end in
            let '(_, after_space) := span html_space after_name in
            match after_space with
            | String "="%char _ =>
                let '(_, after_eq) := span (Ascii.eqb "=") after_space in
                let '(_, v) := span html_space after_eq in
                match v with
                | String q v' =>
                    if is_quote q then
                      match cut (String q EmptyString) v' with
                      | Some (value, rest) => more value rest
                      | None => more EmptyString v'
                      end
                    else
                      let '(value, rest) :=
                        span (fun x => negb (html_space x || Ascii.eqb x ">")) v in
                      more value rest
                | EmptyString => None
                end
            | _ => more EmptyString after_name
            end
      end
  end.

(** The tokens of a page.  Text runs up to the next [<]; [<name ...>],
    [</name>], [<!-- ... -->], [<!...>] and [<?...>] are recognised, the
    last two giving a string that is no text, as a comment does; a [<] that
    opens none of them is text, and so is a construct that is never closed.
    Character references are left as they are, the bodies of [script] and
    [style] are read as markup and a CDATA section as a declaration. *)
Fixpoint tokenize (fuel : nat) (s : string) : list token :=
  match fuel with
  | O => []
  | S fuel' =>
      match s with
      | EmptyString => []
      | String "<"%char rest =>
          if String.prefix "!--" rest then
            match cut "-->" (sdrop 3 rest) with
            | Some (c, rest') => TComment c :: tokenize fuel' rest'
            | None => [TData s]
            end
          else
            match rest with
            | String c rest1 =>
                if is_alpha c then
                  let '(name, after) := span (fun x => negb (name_end x)) rest in
                  match parse_attrs (S (String.length after)) after with
                  | Some (attrs, true, rest') =>
                      TStartEnd (lower name) attrs :: tokenize fuel' rest'
                  | Some (attrs, false, rest') =>
                      TStart (lower name) attrs :: tokenize fuel' rest'
                  | None => [TData s]
                  end
                else if Ascii.eqb c "/" then
                  match cut ">" rest1 with
                  | Some (inside, rest') =>
                      let '(strict, after) := span end_name_char (lstrip inside) in
                      let '(loose, _) := span (fun x => negb (name_end x)) inside in
                      if starts_alpha strict && negb (nonempty (lstrip after))
                      then TEnd (lower strict) :: tokenize fuel' rest'
                      else if starts_alpha loose
                      then TEnd (lower loose) :: tokenize fuel' rest'
                      else if nonempty inside
                      then TComment inside :: tokenize fuel' rest'
                      else tokenize fuel' rest'
                  | None => [TData s]
                  end
                else if one_of "!?" c then
                  match cut ">" rest1 with
                  | Some (inside, rest') => TComment inside :: tokenize fuel' rest'
                  | None => [TData s]
                  end
                else TData "<" :: tokenize fuel' rest
            | EmptyString => [TData "<"]
            end
      | _ =>
          let '(d, rest) := span (fun x => negb (Ascii.eqb x "<")) s in
          TData d :: tokenize fuel' rest
      end
  end.

(** An element that is still open, its children newest first. *)
Record frame := Frame {
  f_name : string;
  f_attrs : gmap string string;
  f_kids : list node;
}.

(** The tree builder: the open elements, innermost first; the children of
    the document, newest first; the text collected since the last tag; the
    names of the void elements closed at their start tag. *)
Record builder := Builder {
  b_open : list frame;
  b_top : list node;
  b_data : string;
  b_closed : list string;
}.

Definition void_names : list string :=
  ["area"; "base"; "br"; "col"; "embed"; "hr"; "img"; "input"; "keygen";
   "link"; "menuitem"; "meta"; "param"; "source"; "track"; "wbr";
   "basefont"; "bgsound"; "command"; "frame"; "image"; "isindex"; "nextid";
   "spacer"].

Definition add_node (n : node) (b : builder) : builder :=
  match b_open b with
  | f :: fs =>
      Builder (Frame (f_name f) (f_attrs f) (n :: f_kids f) :: fs)
              (b_top b) (b_data b) (b_closed b)
  | [] => Builder [] (n :: b_top b) (b_data b) (b_closed b)
  end.

Definition ascii_space (c : ascii) : bool :=
  bool_decide (code c ∈ [32; 10; 9; 12; 13]).

(** [endData]: the collected text becomes one string of the tree; text of
    white space only shrinks to one character outside [pre] and
    [textarea]. *)
Definition end_data (b : builder) : builder :=
  match b_data b with
  | EmptyString => b
  | d =>
      let keep := existsb (fun f => bool_decide (f_name f ∈ ["pre"; "textarea"])) (b_open b) in
      let d' :=
        if negb keep && forallb ascii_space (String.list_ascii_of_string d) then
          if existsb (Ascii.eqb "010") (String.list_ascii_of_string d) then String "010" EmptyString
          else " "
        else d in
      add_node (Text d') (Builder (b_open b) (b_top b) EmptyString (b_closed b))
  end.

Definition pop_tag (b : builder) : builder :=
  match b_open b with
  | f :: fs =>
      add_node (Element (f_name f) (f_attrs f) (rev (f_kids f)))
               (Builder fs (b_top b) (b_data b) (b_closed b))
  | [] => b
  end.

(** [_popToTag]: close the open elements down to the innermost one called
    [name], when there is one. *)
Fixpoint pop_to (name : string) (fuel : nat) (b : builder) : builder :=
  match fuel with
  | O => b
  | S fuel' =>
      match b_open b with
      | [] => b
      | f :: _ =>
          if bool_decide (f_name f = name) then pop_tag b
          else pop_to name fuel' (pop_tag b)
      end
  end.

Definition soup_endtag (name : string) (b : builder) : builder :=
  let b := end_data b in
  if bool_decide (name ∈ map f_name (b_open b)) then pop_to name (length (b_open b)) b
  else b.

Fixpoint remove_first (name : string) (l : list string) : list string :=
  match l with
  | [] => []
  | x :: l' => if bool_decide (x = name) then l' else x :: remove_first name l'
  end.

Definition handle_endtag (check_already_closed : bool) (name : string) (b : builder)
    : builder :=
  if check_already_closed && bool_decide (name ∈ b_closed b) then
    Builder (b_open b) (b_top b) (b_data b) (remove_first name (b_closed b))
  else soup_endtag name b.

(** The attribute [dict] of a tag: of two attributes of one name the later
    one stays. *)
Definition attr_dict (attrs : list (string * string)) : gmap string string :=
  foldl (fun m kv => <[kv.1 := kv.2]> m) ∅ attrs.

Definition handle_starttag (handle_empty_element : bool) (name : string)
    (attrs : list (string * string)) (b : builder) : builder :=
  let b := end_data b in
  let b := Builder (Frame name (attr_dict attrs) [] :: b_open b)
                   (b_top b) (b_data b) (b_closed b) in
  if handle_empty_element && bool_decide (name ∈ void_names) then
    let b := handle_endtag false name b in
    Builder (b_open b) (b_top b) (b_data b) (b_closed b ++ [name])
  else b.

Definition feed (b : builder) (t : token) : builder :=
  match t with
  | TData s => Builder (b_open b) (b_top b) (b_data b +:+ s) (b_closed b)
  | TStart name attrs => handle_starttag true name attrs b
  | TStartEnd name attrs => handle_endtag true name (handle_starttag false name attrs b)
  | TEnd name => handle_endtag true name b
  | TComment c => add_node (Comment c) (end_data b)
  end.

Fixpoint pop_all (fuel : nat) (b : builder) : builder :=
  match fuel with
  | O => b
  | S fuel' => pop_all fuel' (pop_tag b)
  end.

Definition html_parser (html : string) : list node :=
  let tokens := tokenize (S (String.length html)) html in
  let b := end_data (foldl feed (Builder [] [] EmptyString []) tokens) in
  rev (b_top (pop_all (length (b_open b)) b)).

(** *** [urllib.parse.urljoin]

    The five parts of [urlsplit]; the parameters after a [;] stay in the
    path. *)
Record url_parts := UrlParts {
  u_scheme : string;
  u_netloc : string;
  u_path : string;
  u_query : string;
  u_fragment : string;
}.

Definition scheme_char (c : ascii) : bool :=
  is_alpha c || is_digit c || one_of "+-." c.

Definition uses_relative : list string :=
  [""; "ftp"; "http"; "gopher"; "nntp"; "imap"; "wais"; "file"; "https";
   "shttp"; "mms"; "prospero"; "rtsp"; "rtspu"; "sftp"; "svn"; "svn+ssh";
   "ws"; "wss"].

Definition uses_netloc : list string :=
  [""; "ftp"; "http"; "gopher"; "nntp"; "telnet"; "imap"; "wais"; "file";
   "mms"; "https"; "shttp"; "snews"; "prospero"; "rtsp"; "rtspu"; "rsync";
   "svn"; "svn+ssh"; "sftp"; "nfs"; "git"; "git+ssh"; "ws"; "wss"].

Definition urlsplit (url scheme : string) : url_parts :=
  let '(scheme, url) :=
    match cut ":" url with
    | Some (String c pre, rest) =>
        if is_alpha c && forallb scheme_char (String.list_ascii_of_string pre)
        then (lower (String c pre), rest) else (scheme, url)
    | _ => (scheme, url)
    end in
  let '(netloc, url) :=
    if String.prefix "//" url
    then span (fun x => negb (one_of "/?#" x)) (sdrop 2 url)
    else (EmptyString, url) in
  let '(url, fragment) := default (url, EmptyString) (cut "#" url) in
  let '(url, query) := default (url, EmptyString) (cut "?" url) in
  UrlParts scheme netloc url query fragment.

Definition urlunsplit (p : url_parts) : string :=
  let url := u_path p in
  let url :=
    if nonempty (u_netloc p)
       || (nonempty (u_scheme p) && bool_decide (u_scheme p ∈ uses_netloc)
           && negb (String.prefix "//" url))
    then "//" +:+ u_netloc p
         +:+ (if nonempty url && negb (String.prefix "/" url) then "/" +:+ url else url)
    else url in
  let url := if nonempty (u_scheme p) then u_scheme p +:+ ":" +:+ url else url in
  let url := if nonempty (u_query p) then url +:+ "?" +:+ u_query p else url in
  if nonempty (u_fragment p) then url +:+ "#" +:+ u_fragment p else url.

(** The loop over the segments that removes [.] and [..]. *)
Fixpoint resolve (segments resolved : list string) : list string :=
  match segments with
  | [] => resolved
  | seg :: segments' =>
      if bool_decide (seg = "..") then resolve segments' (removelast resolved)
      else if bool_decide (seg = ".") then resolve segments' resolved
      else resolve segments' (resolved ++ [seg])
  end.

(** [segments[1:-1] = filter(None, segments[1:-1])]. *)
Definition drop_empty_inner (segments : list string) : list string :=
  match segments with
  | first :: rest =>
      match rev rest with
      | last :: inner_rev => first :: List.filter nonempty (rev inner_rev) ++ [last]
      | [] => segments
      end
  | [] => []
  end.

Definition py_urljoin (base url : string) : string :=
  if negb (nonempty base) then url
  else if negb (nonempty url) then base
  else
    let b := urlsplit base EmptyString in
    let u := urlsplit url (u_scheme b) in
    if negb (bool_decide (u_scheme u = u_scheme b))
       || negb (bool_decide (u_scheme u ∈ uses_relative))
    then url
    else if bool_decide (u_scheme u ∈ uses_netloc) && nonempty (u_netloc u)
    then urlunsplit u
    else
      let netloc := if bool_decide (u_scheme u ∈ uses_netloc) then u_netloc b else u_netloc u in
      if negb (nonempty (u_path u)) then
        urlunsplit (UrlParts (u_scheme u) netloc (u_path b)
                             (if nonempty (u_query u) then u_query u else u_query b)
                             (u_fragment u))
      else
        let base_parts := split_on "/" (u_path b) in
        let base_parts :=
          if nonempty (default EmptyString (last base_parts))
          then removelast base_parts else base_parts in
        let segments :=
          if String.prefix "/" (u_path u) then split_on "/" (u_path u)
          else drop_empty_inner (base_parts ++ split_on "/" (u_path u)) in
        let resolved := resolve segments [] in
        let resolved :=
          if bool_decide (default EmptyString (last segments) ∈ ["."; ".."])
          then resolved ++ [EmptyString] else resolved in
        let path := String.concat "/" resolved in
        urlunsplit (UrlParts (u_scheme u) netloc
                             (if nonempty path then path else "/")
                             (u_query u) (u_fragment u)).

#[export] Instance python_lib : WebLib := {|
  BeautifulSoup := html_parser;
  urljoin := py_urljoin;
|}.

(** ** The scraper object and the semantics of the actions *)

Inductive action :=
| Requested (url : string) (a : attempt)
| Slept (secs : Z)
| Logged (lvl : level) (msg : string)
| Stored (r : row)
| StoreFailed (r : row) (e : exn)
| Appended (key item : string)
| AppendFailed (key : string).

(** [results] is [self.results]; [table] is the rows of [scraped_data];
    [db_calls] counts the calls of [insert_data]; [events] is everything
    that happened, oldest first, each with the task that did it. *)
Record scraper := Scraper {
  results : gmap string (list string);
  table : list row;
  db_calls : nat;
  events : list (nat * action);
}.

Definition emit (tid : nat) (a : action) (s : scraper) : scraper :=
  Scraper (results s) (table s) (db_calls s) (events s ++ [(tid, a)]).

(** A task of the event loop: its number, the rest of its coroutine and the
    number of requests it has made. *)
Record task := Task { task_id : nat; task_code : prog unit; task_reqs : nat }.

Definition finished (t : task) : bool :=
  match task_code t with
  | Ret _ | Raise _ => true
  | _ => false
  end.

Definition failure (t : task) : option exn :=
  match task_code t with
  | Raise e => Some e
  | _ => None
  end.

(** ** Pages and worlds for the examples *)

Definition dq : string := String "034" EmptyString.

(** The page of the specification: an [h1] with the text A, a [p] with the
    text B, an [img] with the source /x.png and an [a] to /y. *)
Definition sample_page : string :=
  "<h1>A</h1><p>B</p><img src=" +:+ dq +:+ "/x.png" +:+ dq
  +:+ "><a href=" +:+ dq +:+ "/y" +:+ dq +:+ ">Y</a>".


(** The scraper [__init__] makes when the table is empty. *)
Definition fresh : scraper :=
  Scraper {[ "Headings" := []; "Text" := []; "Images" := []; "Links" := [] ]} [] 0 [].

(** Every request gives [page]; only the requests of the first task do, the
    others time out. *)
Definition net_page (page : string) : nat -> nat -> attempt :=
  fun _ _ => Response 200 (Ok page).

Definition net_first_only (page : string) : nat -> nat -> attempt :=
  fun tid _ =>
    match tid with
    | O => Response 200 (Ok page)
    | S _ => GetRaises (Exn TimeoutError "timeout")
    end.

(** The storage works; the storage fails at its second call. *)
Definition db_ok : nat -> option exn := fun _ => None.

Definition db_second_fails : nat -> option exn :=
  fun c =>
    match c with
    | 1%nat => Some (Exn StorageError "connection lost")
    | _ => None
    end.

(** Two tasks resumed in turn, six times each. *)
Definition round_robin : list nat := [0; 1; 0; 1; 0; 1; 0; 1; 0; 1; 0; 1]%nat.

(** What [csv.writer] writes for a row whose fields need no quoting, and
    [str] of the tuple of a row whose fields need no escaping. *)
Definition plain_writerow (fields : list string) : string :=
  String.concat "," fields +:+ String "013" (String "010" EmptyString).

Definition plain_row_str (r : row) : string :=
  "('" +:+ row_url r +:+ "', '" +:+ row_category r +:+ "', '" +:+ row_content r +:+ "')".

(** A fact on concrete sets of keys, by computation. *)
Ltac keys_by_computation :=
  repeat split; apply bool_decide_unpack; vm_compute; exact I.

Section Pipeline.

Context {lib : WebLib}.

(** [net tid n]: what the network does with the [n]-th request of task
    [tid].  [db n]: the exception the [n]-th call of [insert_data] raises,
    if it raises. *)
Variable net : nat -> nat -> attempt.
Variable db : nat -> option exn.

(** *** Extraction (lines 76-97 of [extract_data]) *)

Definition heading_names : list string := ["h1"; "h2"; "h3"; "h4"; "h5"; "h6"].

Definition headings_of (soup : list node) : list string :=
  map (fun heading => strip (node_text heading)) (find_all heading_names soup).

Definition paragraphs_of (soup : list node) : list string :=
  map (fun paragraph => strip (node_text paragraph)) (find_all ["p"] soup).

Definition images_of (url : string) (soup : list node) : list string :=
  map (fun img => urljoin url (default "" (tag_get img "src")))
      (List.filter (fun img => truthy (tag_get img "src")) (find_all ["img"] soup)).

Definition links_of (url : string) (soup : list node) : list string :=
  map (fun link => urljoin url (default "" (tag_get link "href")))
      (List.filter (fun link => truthy (tag_get link "href")) (find_all ["a"] soup)).

(** *** [AdvancedWebScraper.extract_data] (lines 72-104) *)

Definition scraped_message (url : string) : string :=
  "Successfully scraped and stored data from " +:+ url.

Definition fetch_failed_message (url : string) : string :=
  "Failed to fetch content from " +:+ url.

Definition extract_data (url : string) : prog unit :=
  html_content <- fetch_url url;;
  if truthy html_content then
    let soup := BeautifulSoup (default "" html_content) in
    for_each (headings_of soup) (fun heading =>
      insert_data url "Heading" heading;;
      results_append "Headings" heading);;
    for_each (paragraphs_of soup) (fun paragraph =>
      insert_data url "Text" paragraph;;
      results_append "Text" paragraph);;
    for_each (images_of url soup) (fun image =>
      insert_data url "Image" image;;
      results_append "Images" image);;
    for_each (links_of url soup) (fun link =>
      insert_data url "Link" link;;
      results_append "Links" link);;
    log INFO (scraped_message url)
  else
    log ERROR (fetch_failed_message url).

(** *** What the actions do to the scraper *)

Definition do_insert (tid : nat) (r : row) (s : scraper) : result unit * scraper :=
  match db (db_calls s) with
  | Some e =>
      (Err e, Scraper (results s) (table s) (S (db_calls s))
                      (events s ++ [(tid, StoreFailed r e)]))
  | None =>
      (Ok tt, Scraper (results s) (table s ++ [r]) (S (db_calls s))
                      (events s ++ [(tid, Stored r)]))
  end.

(** [self.results[key].append(item)]: a [KeyError] when the key is absent. *)
Definition do_append (tid : nat) (key item : string) (s : scraper)
    : result unit * scraper :=
  match results s !! key with
  | Some l =>
      (Ok tt, Scraper (<[key := l ++ [item]]> (results s)) (table s) (db_calls s)
                      (events s ++ [(tid, Appended key item)]))
  | None => (Err (Exn KeyError key), emit tid (AppendFailed key) s)
  end.

(** *** One coroutine run alone, to its end *)

Fixpoint run {A : Type} (tid : nat) (p : prog A) (n : nat) (s : scraper)
    : result A * nat * scraper :=
  match p with
  | Ret a => (Ok a, n, s)
  | Raise e => (Err e, n, s)
  | Get url k =>
      run tid (k (net tid n)) (S n) (emit tid (Requested url (net tid n)) s)
  | Sleep secs k => run tid k n (emit tid (Slept secs) s)
  | Log lvl msg k => run tid k n (emit tid (Logged lvl msg) s)
  | DbInsert r k => let '(x, s') := do_insert tid r s in run tid (k x) n s'
  | Append key item k =>
      let '(x, s') := do_append tid key item s in run tid (k x) n s'
  end.

(** *** The event loop

    A coroutine that has the control keeps it until it awaits the network or
    a sleep, or ends. *)
Fixpoint advance (tid : nat) (p : prog unit) (s : scraper) : prog unit * scraper :=
  match p with
  | Log lvl msg k => advance tid k (emit tid (Logged lvl msg) s)
  | DbInsert r k => let '(x, s') := do_insert tid r s in advance tid (k x) s'
  | Append key item k =>
      let '(x, s') := do_append tid key item s in advance tid (k x) s'
  | _ => (p, s)
  end.

(** What a task awaits completes, and the task runs to its next await. *)
Definition resume (t : task) (s : scraper) : task * scraper :=
  let tid := task_id t in
  match task_code t with
  | Get url k =>
      let a := net tid (task_reqs t) in
      let '(p, s') := advance tid (k a) (emit tid (Requested url a) s) in
      (Task tid p (S (task_reqs t)), s')
  | Sleep secs k =>
      let '(p, s') := advance tid k (emit tid (Slept secs) s) in
      (Task tid p (task_reqs t), s')
  | _ => (t, s)
  end.

(** The [i]-th task of the pool is resumed. *)
Definition step (i : nat) (pool : list task) (s : scraper) : list task * scraper :=
  match pool !! i with
  | Some t => let '(t', s') := resume t s in (<[i := t']> pool, s')
  | None => (pool, s)
  end.

(** The loop resumes the tasks in the order [sched] of the completions. *)
Fixpoint run_pool (sched : list nat) (pool : list task) (s : scraper)
    : list task * scraper :=
  match sched with
  | [] => (pool, s)
  | i :: sched' => let '(pool', s') := step i pool s in run_pool sched' pool' s'
  end.

(** The exception [gather] raises is the first one a task raised.  [first]
    is it, once there is one. *)
Fixpoint first_failure (sched : list nat) (pool : list task) (s : scraper)
    (first : option exn) : option exn :=
  match sched with
  | [] => first
  | i :: sched' =>
      let '(pool', s') := step i pool s in
      first_failure sched' pool' s'
        (match first with
         | Some e => Some e
         | None => pool' !! i ≫= failure
         end)
  end.

(** The tasks start in the order of their creation, each up to its first
    await. *)
Fixpoint start (tid : nat) (progs : list (prog unit)) (s : scraper)
    : list task * scraper :=
  match progs with
  | [] => ([], s)
  | p :: progs' =>
      let '(p', s') := advance tid p s in
      let '(pool, s'') := start (S tid) progs' s' in
      (Task tid p' 0 :: pool, s'')
  end.

(** [await asyncio.gather] on the coroutines [progs], seen when the
    completions [sched] have happened: the first exception of a task is
    raised to the caller, the call returns when every task has finished, and
    it is still waiting ([None]) otherwise. *)
Definition outcome (first : option exn) (pool : list task) : option (result unit) :=
  match first with
  | Some e => Some (Err e)
  | None => if forallb finished pool then Some (Ok tt) else None
  end.

Definition gather (sched : list nat) (progs : list (prog unit)) (s : scraper)
    : option (result unit) * scraper :=
  let '(pool, s0) := start 0 progs s in
  let '(pool', s') := run_pool sched pool s0 in
  (outcome (first_failure sched pool s0 (head (omap failure pool))) pool', s').

(** *** [AdvancedWebScraper.scrape_multiple_urls] (lines 132-137) *)

Definition scrape_multiple_urls (sched : list nat) (urls : list string)
    (s : scraper) : option (result unit) * scraper :=
  let tasks := map extract_data urls in
  gather sched tasks s.

(** *** [main] (lines 149-189), up to the call of [scrape_multiple_urls]

    [stdin] is the lines the user types; [input] raises [EOFError] when they
    are used up.  The console is the list of what was written to it. *)

Definition prompt : string := "Please enter a URL (or press Enter to finish): ".

Fixpoint read_urls (stdin urls console : list string)
    : result (list string) * list string :=
  match stdin with
  | [] => (Err (Exn EOFError "EOF when reading a line"), console ++ [prompt])
  | url :: stdin' =>
      if nonempty url then read_urls stdin' (urls ++ [url]) (console ++ [prompt])
      else
        match urls with
        | _ :: _ => (Ok urls, console ++ [prompt])
        | [] =>
            read_urls stdin' urls
              (console ++ [prompt; "Please enter at least one URL."])
        end
  end.

(** [setup_database] (lines 31-45): [db_url] is the environment variable
    [DB_URL]; the connection and [CREATE TABLE IF NOT EXISTS] succeed. *)
Definition setup_database (db_url : option string) : result unit :=
  if truthy db_url then Ok tt
  else Err (Exn ValueError "Database URL not found in environment variables").

(** [AdvancedWebScraper()] (lines 14-29): [rows] is what the table
    [scraped_data] holds already. *)
Definition new_scraper (db_url : option string) (rows : list row) : result scraper :=
  match setup_database db_url with
  | Ok _ =>
      Ok (Scraper {[ "Headings" := []; "Text" := []; "Images" := []; "Links" := [] ]}
                  rows 0 [])
  | Err e => Err e
  end.

Definition error_line (e : exn) : string :=
  match exn_kind_of e with
  | StorageError => "Database error: " +:+ exn_msg e
  | _ => "An error occurred: " +:+ exn_msg e
  end.

(** The console and the scraper when [main] has awaited the scrape; the
    reports that follow it are not part of the model. *)
Definition main (sched : list nat) (db_url : option string) (rows : list row)
    (stdin : list string) : list string * option scraper :=
  match new_scraper db_url rows with
  | Err e => ([error_line e], None)
  | Ok scraper =>
      match read_urls stdin [] [] with
      | (Err e, console) => (console ++ [error_line e], Some scraper)
      | (Ok urls, console) =>
          let console :=
            console ++ ["Extracting data from " +:+ pretty (length urls) +:+ " URL(s)..."] in
          match scrape_multiple_urls sched urls scraper with
          | (Some (Err e), s) => (console ++ [error_line e], Some s)
          | (_, s) => (console, Some s)
          end
      end
  end.

(** *** [main] to its end: the reports, the handlers and [finally]
    (lines 171-189)

    The module has been imported.  Line 5 binds the name [csvff]; no line
    of the module binds the name [csv], and no builtin has it. *)

Definition nl : string := String "010" EmptyString.

(** The names that the module binds: those of its imports (lines 1-11),
    the class and [main]. *)
Definition module_names : list string :=
  ["os"; "sql"; "BeautifulSoup"; "urljoin"; "csvff"; "load_dotenv"; "logging";
   "asyncio"; "aiohttp"; "UserAgent"; "psycopg2"; "AdvancedWebScraper"; "main"].

(** The exception of the reports, and its [str]. *)
Inductive report_exn :=
| NameError (name : string).

Definition report_msg (e : report_exn) : string :=
  match e with
  | NameError name => "name '" +:+ name +:+ "' is not defined"
  end.

(** The value of a global name is looked up when the line that uses it is
    run. *)
Definition load_name (name : string) : option report_exn :=
  if bool_decide (name ∈ module_names) then None else Some (NameError name).

(** What is around [main]: what [print] has written, one string for each
    call, what the logger of [save_to_csv] has written, the files, and
    whether the connection to the database is open. *)
Record world := World {
  console : list string;
  logged : list string;
  files : gmap string string;
  connected : bool;
}.

Definition print (lines : list string) (w : world) : world :=
  World (console w ++ lines) (logged w) (files w) (connected w).

(** The keys of [self.results] in the order in which [__init__] inserts
    them, which is the order of [self.results.items()]. *)
Definition categories : list string := ["Headings"; "Text"; "Images"; "Links"].

(** [display_results] (lines 120-130). *)
Definition display_category (category : string) (data : list string) : list string :=
  (nl +:+ category +:+ ":") ::
  match data with
  | _ :: _ =>
      take 5 data ++
      (if bool_decide (5 < Z.of_nat (length data))
       then ["... and " +:+ pretty (Z.of_nat (length data) - 5) +:+ " more items"]
       else [])
  | [] => ["No " +:+ lower category +:+ " found based on the specified criteria."]
  end.

Definition display_lines (s : scraper) : list string :=
  "Scraped Data:" ::
  flat_map (fun category =>
              from_option (display_category category) [] (results s !! category))
           categories.

Definition display_results (s : scraper) (w : world) : world :=
  print (display_lines s) w.

(** [save_to_csv] (lines 106-118).  [csv_writerow] is what
    [csv.writer(csvfile).writerow] writes for a row. *)
Variable csv_writerow : list string -> string.

Definition csv_rows (s : scraper) : list (list string) :=
  flat_map (fun category =>
              from_option (fun data => [category] :: map (fun item => [item]) data ++ [[]])
                          [] (results s !! category))
           categories.

(** [open(filename, 'w')] empties the file; the [with] block closes it
    when the body raises. *)
Definition save_to_csv (filename : string) (s : scraper) (w : world)
    : option report_exn * world :=
  let opened := World (console w) (logged w) (<[filename := ""]> (files w)) (connected w) in
  match load_name "csv" with
  | Some e => (Some e, opened)
  | None =>
      (None,
       World (console w) (logged w ++ ["Data saved to " +:+ filename])
             (<[filename := String.concat "" (map csv_writerow (csv_rows s))]> (files w))
             (connected w))
  end.

(** [view_all_data] (lines 143-147).  [row_str] is [str] of the tuple of a
    row. *)
Variable row_str : row -> string.

Definition view_all_data (s : scraper) (w : world) : world :=
  print (map row_str (table s)) w.

(** [close_database] (lines 139-141). *)
Definition close_database (w : world) : world :=
  World (console w) (logged w) (files w) false.

(** Lines 171-181 of [main]. *)
Definition reports (s : scraper) (w : world) : option report_exn * world :=
  let w := display_results s w in
  let filename := "scraped_data.csv" in
  match save_to_csv filename s w with
  | (Some e, w) => (Some e, w)
  | (None, w) =>
      let w := print [nl +:+ "Data stored in the database:"] w in
      let w := view_all_data s w in
      (None,
       print [nl +:+ "Data has been scraped and stored in the database and CSV file."] w)
  end.

(** [main] to its end, when [scrape_multiple_urls] has returned or raised:
    the reports, the two handlers and the [finally] block.  [files0] is
    the files before the run. *)
Definition main_complete (sched : list nat) (db_url : option string) (rows : list row)
    (stdin : list string) (files0 : gmap string string) : option (world * option scraper) :=
  match new_scraper db_url rows with
  | Err e => Some (World [error_line e] [] files0 false, None)
  | Ok scraper =>
      match read_urls stdin [] [] with
      | (Err e, console) =>
          Some (close_database (World (console ++ [error_line e]) [] files0 true),
                Some scraper)
      | (Ok urls, console) =>
          let w :=
            World (console
                   ++ ["Extracting data from " +:+ pretty (length urls) +:+ " URL(s)..."])
                  [] files0 true in
          match scrape_multiple_urls sched urls scraper with
          | (None, _) => None
          | (Some (Err e), s) => Some (close_database (print [error_line e] w), Some s)
          | (Some (Ok _), s) =>
              match reports s w with
              | (Some e, w) =>
                  Some (close_database
                          (print ["An error occurred: " +:+ report_msg e] w), Some s)
              | (None, w) => Some (close_database w, Some s)
              end
          end
      end
  end.

(** ** What the claims are stated with

    These definitions describe what the coroutines above do; each one is
    related to them by a lemma below. *)

(** *** What a coroutine does, without the scraper

    [script keys tid p n c] lists the actions of [p] run as task [tid] when
    [n] requests and [c] calls of [insert_data] have been made and
    [self.results] has the keys [keys], and gives its result. *)

Definition requests (acts : list action) : nat :=
  length (List.filter (fun a => match a with Requested _ _ => true | _ => false end) acts).

Definition inserts (acts : list action) : nat :=
  length (List.filter (fun a => match a with
                                | Stored _ | StoreFailed _ _ => true
                                | _ => false
                                end) acts).

Fixpoint script {A : Type} (keys : gset string) (tid : nat) (p : prog A)
    (n c : nat) : list action * result A :=
  match p with
  | Ret a => ([], Ok a)
  | Raise e => ([], Err e)
  | Get url k =>
      let '(acts, r) := script keys tid (k (net tid n)) (S n) c in
      (Requested url (net tid n) :: acts, r)
  | Sleep secs k =>
      let '(acts, r) := script keys tid k n c in (Slept secs :: acts, r)
  | Log lvl msg k =>
      let '(acts, r) := script keys tid k n c in (Logged lvl msg :: acts, r)
  | DbInsert row k =>
      match db c with
      | Some e =>
          let '(acts, r) := script keys tid (k (Err e)) n (S c) in
          (StoreFailed row e :: acts, r)
      | None =>
          let '(acts, r) := script keys tid (k (Ok tt)) n (S c) in
          (Stored row :: acts, r)
      end
  | Append key item k =>
      if bool_decide (key ∈ keys) then
        let '(acts, r) := script keys tid (k (Ok tt)) n c in
        (Appended key item :: acts, r)
      else
        let '(acts, r) := script keys tid (k (Err (Exn KeyError key))) n c in
        (AppendFailed key :: acts, r)
  end.

(** What an action leaves in the scraper. *)
Definition apply_action (tid : nat) (s : scraper) (a : action) : scraper :=
  let evs := events s ++ [(tid, a)] in
  match a with
  | Stored r => Scraper (results s) (table s ++ [r]) (S (db_calls s)) evs
  | StoreFailed _ _ => Scraper (results s) (table s) (S (db_calls s)) evs
  | Appended key item =>
      Scraper (<[key := results s !!! key ++ [item]]> (results s)) (table s)
              (db_calls s) evs
  | _ => Scraper (results s) (table s) (db_calls s) evs
  end.

Definition apply_actions (tid : nat) (acts : list action) (s : scraper) : scraper :=
  foldl (apply_action tid) s acts.

(** The items appended under [key], the rows stored, the seconds slept. *)
Definition appended (key : string) (acts : list action) : list string :=
  omap (fun a => match a with
                 | Appended k item => if bool_decide (k = key) then Some item else None
                 | _ => None
                 end) acts.

Definition stored (acts : list action) : list row :=
  omap (fun a => match a with Stored r => Some r | _ => None end) acts.

Definition slept (acts : list action) : list Z :=
  omap (fun a => match a with Slept secs => Some secs | _ => None end) acts.

(** The requests that gave a page: status 200 and a body that was read. *)
Definition successes (acts : list action) : nat :=
  length (List.filter (fun a => match a with
                                | Requested _ (Response st (Ok _)) => bool_decide (st = 200)
                                | _ => false
                                end) acts).

(** Actions that leave the table and [self.results] alone. *)
Definition quiet_action (a : action) : bool :=
  match a with
  | Requested _ _ | Slept _ | Logged _ _ => true
  | _ => false
  end.

(** The awaits of a list of actions: the requests and the sleeps. *)
Definition awaits (acts : list action) : nat :=
  length (List.filter (fun a => match a with
                                | Requested _ _ | Slept _ => true
                                | _ => false
                                end) acts).

(** The key of [self.results] that goes with a category of the table: the
    pairs of the four loops of [extract_data]. *)
Definition key_of (category : string) : string :=
  if bool_decide (category = "Heading") then "Headings"
  else if bool_decide (category = "Image") then "Images"
  else if bool_decide (category = "Link") then "Links"
  else category.

(** The contents of the rows whose category goes with [key]. *)
Definition contents_for (key : string) (rows : list row) : list string :=
  omap (fun r => if bool_decide (key_of (row_category r) = key)
                 then Some (row_content r) else None) rows.

(** [self.results] has the four keys [__init__] gives it. *)
Definition has_keys (keys : gset string) : Prop :=
  "Headings" ∈ keys ∧ "Text" ∈ keys ∧ "Images" ∈ keys ∧ "Links" ∈ keys.

(** The actions of the sink for the page of [url]: no request and no sleep,
    and rows of [url] only. *)
Definition sink_action (url : string) (a : action) : Prop :=
  match a with
  | Stored r | StoreFailed r _ => row_url r = url
  | Appended _ _ | AppendFailed _ | Logged _ _ => True
  | Requested _ _ | Slept _ => False
  end.

(** The items appended are the contents of the rows stored, and a storage
    error ends the coroutine with that error, at once. *)
Definition sound {A : Type} (x : list action * result A) : Prop :=
  (∀ key, appended key x.1 = contents_for key (stored x.1)) ∧
  (∀ row e, StoreFailed row e ∈ x.1 →
     x.2 = Err e ∧ last x.1 = Some (StoreFailed row e)).

(** What one pass of the loop of [fetch_url] does, by what the network
    answers to its request. *)
Definition last_retry (retry : Z) : flow (option string) :=
  if bool_decide (retry = max_retries - 1) then Return None else Continue.

Definition attempt_actions (url : string) (retry : Z) (a : attempt)
    : list action * flow (option string) :=
  match a with
  | GetRaises e =>
      ([Requested url a; Logged ERROR (request_error url e)], last_retry retry)
  | Response st tx =>
      if bool_decide (st = 200) then
        match tx with
        | Ok body => ([Requested url a], Return (Some body))
        | Err e =>
            ([Requested url a; Logged ERROR (request_error url e)], last_retry retry)
        end
      else
        ([Requested url a; Logged WARNING (retry_warning url st retry);
          Slept (2 ^ retry)], Continue)
  end.

(** A request that gives no page: an exception, a status other than 200, or
    a body that cannot be read. *)
Definition failed_attempt (a : attempt) : Prop :=
  match a with
  | Response st (Ok _) => st ≠ 200
  | _ => True
  end.

(** The seconds slept after the request [retry], by what the network
    answered: [2 ^ retry] after a status other than 200, none otherwise. *)
Definition backoff (retry : Z) (a : attempt) : list Z :=
  match a with
  | Response st _ => if bool_decide (st = 200) then [] else [2 ^ retry]
  | GetRaises _ => []
  end.

(** What task [tid] fetches for [url]: the body, or [None]. *)
Definition fetched (tid : nat) (url : string) : option string :=
  match (script ∅ tid (fetch_url url) 0 0).2 with
  | Ok o => o
  | Err _ => None
  end.

(** The actions of [extract_data] on a page when no [insert_data] raises:
    for each item its row is stored and the item appended, category by
    category, and the success is logged. *)
Definition record_actions (url category key : string) (items : list string)
    : list action :=
  flat_map (fun item => [Stored (Row url category item); Appended key item]) items.

Definition page_actions (url : string) (soup : list node) : list action :=
  record_actions url "Heading" "Headings" (headings_of soup)
  ++ record_actions url "Text" "Text" (paragraphs_of soup)
  ++ record_actions url "Image" "Images" (images_of url soup)
  ++ record_actions url "Link" "Links" (links_of url soup)
  ++ [Logged INFO (scraped_message url)].

(** The items of a page that go under [key], and the rows of a page. *)
Definition items (key url : string) (soup : list node) : list string :=
  if bool_decide (key = "Headings") then headings_of soup
  else if bool_decide (key = "Text") then paragraphs_of soup
  else if bool_decide (key = "Images") then images_of url soup
  else if bool_decide (key = "Links") then links_of url soup
  else [].

Definition rows_of (url : string) (soup : list node) : list row :=
  map (Row url "Heading") (headings_of soup)
  ++ map (Row url "Text") (paragraphs_of soup)
  ++ map (Row url "Image") (images_of url soup)
  ++ map (Row url "Link") (links_of url soup).

(** What the unit of work of [url], run as task [tid], contributes: the
    items and the rows of the page it fetches, nothing when the fetch gives
    [None] or an empty body. *)
Definition page_items (key : string) (tid : nat) (url : string) : list string :=
  if truthy (fetched tid url)
  then items key url (BeautifulSoup (default "" (fetched tid url))) else [].

Definition page_rows (tid : nat) (url : string) : list row :=
  if truthy (fetched tid url)
  then rows_of url (BeautifulSoup (default "" (fetched tid url))) else [].

(** *** The tasks of the pool *)

(** A coroutine that is at an await or has ended. *)
Definition settled (p : prog unit) : bool :=
  match p with
  | Ret _ | Raise _ | Get _ _ | Sleep _ _ => true
  | _ => false
  end.

(** What a task has still to do, when no [insert_data] raises. *)
Definition future (keys : gset string) (t : task) : list action * result unit :=
  script keys (task_id t) (task_code t) (task_reqs t) 0.

(** What is still to come of an observation of the scraper: [f tid acts] is
    what the actions [acts] of task [tid] add to it. *)
Definition pending {X} (f : nat → list action → list X) (keys : gset string)
    (pool : list task) : list X :=
  concat (map (λ t, f (task_id t) (future keys t).1) pool).

Definition tracks {X} (obs : scraper → list X) (f : nat → list action → list X) : Prop :=
  (∀ tid acts s, obs (apply_actions tid acts s) = obs s ++ f tid acts) ∧
  (∀ tid a b, f tid (a ++ b) = f tid a ++ f tid b) ∧
  (∀ tid, f tid [] = []).

(** Every task is at an await or has ended, and none is going to raise. *)
Definition pool_ok (keys : gset string) (pool : list task) (s : scraper) : Prop :=
  dom (results s) = keys ∧
  Forall (λ t, settled (task_code t) = true ∧ (future keys t).2 = Ok tt) pool.


(** The schedule resumes each of the [n] tasks six times at least. *)
Definition fair (n : nat) (sched : list nat) : Prop :=
  ∀ i, (i < n)%nat → (6 ≤ length (filter (eq i) sched))%nat.

(** ** What the further properties are stated with *)

(** An answer that gives a page: status 200 and a body that can be read. *)
Definition gives_page (a : attempt) : bool :=
  match a with
  | Response st (Ok _) => bool_decide (st = 200)
  | _ => false
  end.

(** The body of the first answer that gives a page. *)
Fixpoint first_page (answers : list attempt) : option string :=
  match answers with
  | [] => None
  | a :: answers' =>
      match a with
      | Response st (Ok body) =>
          if bool_decide (st = 200) then Some body else first_page answers'
      | _ => first_page answers'
      end
  end.

(** The answers up to the first one that gives a page, that one included. *)
Fixpoint until_page (answers : list attempt) : list attempt :=
  match answers with
  | [] => []
  | a :: answers' => a :: (if gives_page a then [] else until_page answers')
  end.

(** [s'] holds what [s] holds, and more: [self.results] has the same keys,
    each of its lists and the table have only been added to at the end, and
    no call and no event has been forgotten. *)
Definition extends (s s' : scraper) : Prop :=
  dom (results s') = dom (results s) ∧
  (∀ key, results s !!! key `prefix_of` results s' !!! key) ∧
  table s `prefix_of` table s' ∧
  (db_calls s ≤ db_calls s')%nat ∧
  events s `prefix_of` events s'.

(** What becomes of [rows] handed to [insert_data] one after the other, [c]
    calls having been made before: the rows that are stored, which are those
    before the first call that raises, and the exception of that call. *)
Fixpoint stored_until_failure (c : nat) (rows : list row) : list row * option exn :=
  match rows with
  | [] => ([], None)
  | r :: rows' =>
      match db c with
      | Some e => ([], Some e)
      | None =>
          let '(kept, failure) := stored_until_failure (S c) rows' in
          (r :: kept, failure)
      end
  end.

(** The calls of [insert_data] made on [rows]: one for each row stored and
    the one that raised. *)
Definition calls_made (x : list row * option exn) : nat :=
  match x.2 with
  | Some _ => S (length x.1)
  | None => length x.1
  end.

Definition raised (failure : option exn) : result unit :=
  match failure with
  | Some e => Err e
  | None => Ok tt
  end.

(** A part of a coroutine that hands [rows] to [insert_data], one after
    the other, and ends when a call raises. *)
Definition hands_over (rows : list row) (c : nat) (x : list action * result unit) : Prop :=
  stored x.1 = (stored_until_failure c rows).1 ∧
  x.2 = raised (stored_until_failure c rows).2 ∧
  inserts x.1 = calls_made (stored_until_failure c rows).

(** The actions of a list from the first one that touches the sink. *)
Fixpoint sink_part (acts : list action) : list action :=
  match acts with
  | [] => []
  | a :: acts' => if quiet_action a then sink_part acts' else acts
  end.

(** A task that has begun to store its page does not await before its end. *)
Definition atomic (acts : list action) : Prop := awaits (sink_part acts) = 0%nat.

(** An observation of the sink: the requests, the sleeps and the log lines
    add nothing to it. *)
Definition of_the_sink {X} (f : nat → list action → list X) : Prop :=
  ∀ tid acts, forallb quiet_action acts = true → f tid acts = [].

(** The task [i] comes to its end between the pools [pool] and [pool']. *)
Definition ends_at (i : nat) (pool pool' : list task) : bool :=
  match pool !! i, pool' !! i with
  | Some t, Some t' => negb (finished t) && finished t'
  | _, _ => false
  end.

(** The tasks in the order in which they come to their end. *)
Fixpoint finish_order (sched : list nat) (pool : list task) (s : scraper) : list nat :=
  match sched with
  | [] => []
  | i :: sched' =>
      let '(pool', s') := step i pool s in
      (if ends_at i pool pool' then [i] else []) ++ finish_order sched' pool' s'
  end.


(** A coroutine in which each [insert_data] that returns is followed at once
    by the append of the content of its row under the key of its category,
    and in which nothing else is appended.  [due] is the append that has to
    come next, when an [insert_data] has just returned. *)
Fixpoint paired {A : Type} (keys : gset string) (due : option (string * string))
    (p : prog A) : Prop :=
  match p with
  | Ret _ => due = None
  | Raise _ => due = None
  | Get _ k => due = None ∧ ∀ a, paired keys None (k a)
  | Sleep _ k => due = None ∧ paired keys None k
  | Log _ _ k => due = None ∧ paired keys None k
  | DbInsert r k =>
      due = None ∧
      paired keys (Some (key_of (row_category r), row_content r)) (k (Ok tt)) ∧
      ∀ e, paired keys None (k (Err e))
  | Append key item k =>
      due = Some (key, item) ∧ key ∈ keys ∧ paired keys None (k (Ok tt))
  end.

(** [self.results] mirrors the table: each of its lists is what [base] has
    under the key, followed by the contents of the rows of the category of
    the key that the table holds from the row [k0] on.  With an append
    [due], it does so once that append is made. *)
Definition mirrors (due : option (string * string)) (base : gmap string (list string))
    (k0 : nat) (s : scraper) : Prop :=
  (k0 ≤ length (table s))%nat ∧
  ∀ key,
    results s !!! key
      ++ match due with
         | Some (key', item) => if bool_decide (key' = key) then [item] else []
         | None => []
         end
    = base !!! key ++ contents_for key (drop k0 (table s)).

(** ** Proofs

    *** A coroutine run alone does what its script says *)

Lemma script_bind {A B} keys tid (p : prog A) (f : A -> prog B) n c :
  script keys tid (bind p f) n c =
    let '(a1, r1) := script keys tid p n c in
    match r1 with
    | Ok x =>
        let '(a2, r2) := script keys tid (f x) (n + requests a1) (c + inserts a1) in
        (a1 ++ a2, r2)
    | Err e => (a1, Err e)
    end.
Proof.
  revert n c.
  induction p as [a|e|url k IH|secs k IH|lvl msg k IH|r k IH|key item k IH];
    intros n c; simpl.
  - rewrite !Nat.add_0_r. by destruct (script keys tid (f a) n c).
  - done.
  - rewrite IH. destruct (script keys tid (k (net tid n)) (S n) c) as [a1 [x|e]]; simpl; [|done].
    unfold requests, inserts; simpl. rewrite Nat.add_succ_r.
    by destruct (script keys tid (f x) _ _).
  - rewrite IH. destruct (script keys tid k n c) as [a1 [x|e]]; simpl; [|done].
    unfold requests, inserts; simpl.
    by destruct (script keys tid (f x) _ _).
  - rewrite IH. destruct (script keys tid k n c) as [a1 [x|e]]; simpl; [|done].
    unfold requests, inserts; simpl.
    by destruct (script keys tid (f x) _ _).
  - destruct (db c) as [e|]; rewrite IH.
    + destruct (script keys tid (k (Err e)) n (S c)) as [a1 [x|e']]; simpl; [|done].
      unfold requests, inserts; simpl. rewrite Nat.add_succ_r.
      by destruct (script keys tid (f x) _ _).
    + destruct (script keys tid (k (Ok tt)) n (S c)) as [a1 [x|e']]; simpl; [|done].
      unfold requests, inserts; simpl. rewrite Nat.add_succ_r.
      by destruct (script keys tid (f x) _ _).
  - case_bool_decide; rewrite IH.
    + destruct (script keys tid (k (Ok tt)) n c) as [a1 [x|e']]; simpl; [|done].
      unfold requests, inserts; simpl.
      by destruct (script keys tid (f x) _ _).
    + destruct (script keys tid (k (Err _)) n c) as [a1 [x|e']]; simpl; [|done].
      unfold requests, inserts; simpl.
      by destruct (script keys tid (f x) _ _).
Qed.

Lemma run_script {A} tid (p : prog A) n s :
  run tid p n s =
    let '(acts, r) := script (dom (results s)) tid p n (db_calls s) in
    (r, (n + requests acts)%nat, apply_actions tid acts s).
Proof.
  revert n s.
  induction p as [a|e|url k IH|secs k IH|lvl msg k IH|r k IH|key item k IH];
    intros n s; simpl.
  - by rewrite Nat.add_0_r.
  - by rewrite Nat.add_0_r.
  - rewrite IH. simpl. destruct (script _ tid (k (net tid n)) (S n) _) as [acts r].
    unfold requests; simpl. by rewrite Nat.add_succ_r.
  - rewrite IH. simpl. by destruct (script _ tid k n _) as [acts r].
  - rewrite IH. simpl. by destruct (script _ tid k n _) as [acts r].
  - unfold do_insert. destruct (db (db_calls s)) as [e|]; rewrite IH; simpl.
    + by destruct (script _ tid (k (Err e)) n _) as [acts r'].
    + by destruct (script _ tid (k (Ok tt)) n _) as [acts r'].
  - unfold do_append. destruct (results s !! key) as [l|] eqn:Hl.
    + rewrite bool_decide_eq_true_2; [|by apply elem_of_dom].
      rewrite IH; simpl.
      assert (dom (<[key:=l ++ [item]]> (results s)) = dom (results s)) as ->.
      { rewrite dom_insert_L. apply subseteq_union_1_L, singleton_subseteq_l.
        by apply elem_of_dom_2 in Hl. }
      destruct (script _ tid (k (Ok tt)) n _) as [acts r'].
      unfold apply_actions; simpl. unfold apply_action at 2; simpl.
      by rewrite (lookup_total_correct _ _ _ Hl).
    + rewrite bool_decide_eq_false_2; [|by apply not_elem_of_dom].
      rewrite IH; simpl.
      by destruct (script _ tid (k (Err _)) n _) as [acts r'].
Qed.

(** *** The scraper after a list of actions *)

Lemma apply_actions_app tid a1 a2 s :
  apply_actions tid (a1 ++ a2) s = apply_actions tid a2 (apply_actions tid a1 s).
Proof. apply foldl_app. Qed.

Lemma apply_actions_snoc tid acts a s :
  apply_actions tid (acts ++ [a]) s = apply_action tid (apply_actions tid acts s) a.
Proof. by rewrite apply_actions_app. Qed.

Lemma appended_app key a1 a2 : appended key (a1 ++ a2) = appended key a1 ++ appended key a2.
Proof. apply omap_app. Qed.

Lemma stored_app a1 a2 : stored (a1 ++ a2) = stored a1 ++ stored a2.
Proof. apply omap_app. Qed.

Lemma contents_for_app key r1 r2 :
  contents_for key (r1 ++ r2) = contents_for key r1 ++ contents_for key r2.
Proof. apply omap_app. Qed.

Lemma events_apply tid acts s :
  events (apply_actions tid acts s) = events s ++ map (pair tid) acts.
Proof.
  induction acts as [|a acts IH] using rev_ind; simpl.
  - by rewrite app_nil_r.
  - rewrite apply_actions_snoc, map_app, app_assoc, <- IH. by destruct a.
Qed.

Lemma table_apply tid acts s :
  table (apply_actions tid acts s) = table s ++ stored acts.
Proof.
  induction acts as [|a acts IH] using rev_ind; simpl.
  - by rewrite app_nil_r.
  - rewrite apply_actions_snoc, stored_app, app_assoc, <- IH.
    destruct a; simpl; by rewrite ?app_nil_r.
Qed.

Lemma results_apply tid acts s key :
  results (apply_actions tid acts s) !!! key = results s !!! key ++ appended key acts.
Proof.
  induction acts as [|a acts IH] using rev_ind; simpl.
  - by rewrite app_nil_r.
  - rewrite apply_actions_snoc, appended_app, app_assoc, <- IH.
    destruct a; simpl; rewrite ?app_nil_r; try done.
    case_bool_decide as Hk; simpl.
    + subst. by rewrite lookup_total_insert_eq.
    + by rewrite lookup_total_insert_ne, app_nil_r.
Qed.

Lemma results_apply_quiet tid acts s :
  (∀ key, appended key acts = []) →
  results (apply_actions tid acts s) = results s.
Proof.
  induction acts as [|a acts IH] using rev_ind; intros Hq; [done|].
  rewrite apply_actions_snoc.
  assert (∀ key, appended key acts = [] ∧ appended key [a] = []) as Hq'.
  { intros key. specialize (Hq key). rewrite appended_app in Hq.
    by apply app_eq_nil in Hq. }
  destruct a; simpl; try (apply IH; intros; apply Hq').
  destruct (Hq' key) as [_ Hk]. simpl in Hk.
  by rewrite bool_decide_eq_true_2 in Hk.
Qed.

(** *** The script of [fetch_url] *)

Lemma script_for_in_cons {A R} keys tid (a : A) l (body : A -> prog (flow R)) after n c :
  script keys tid (for_in (a :: l) body after) n c =
    let '(a1, r1) := script keys tid (body a) n c in
    match r1 with
    | Ok (Return r) => (a1, Ok r)
    | Ok Continue =>
        let '(a2, r2) :=
          script keys tid (for_in l body after) (n + requests a1) (c + inserts a1) in
        (a1 ++ a2, r2)
    | Err e => (a1, Err e)
    end.
Proof.
  simpl. rewrite script_bind.
  destruct (script keys tid (body a) n c) as [a1 [[|r]|e]]; simpl; try done.
  by rewrite app_nil_r.
Qed.

Lemma script_fetch_attempt keys tid url retry n c :
  script keys tid (fetch_attempt url retry) n c =
    let '(acts, f) := attempt_actions url retry (net tid n) in (acts, Ok f).
Proof.
  unfold fetch_attempt, attempt_actions, session_get, response_text, last_retry; simpl.
  destruct (net tid n) as [e|st [body|e]]; simpl.
  - by case_bool_decide.
  - by case_bool_decide.
  - case_bool_decide; simpl; [|done]. by case_bool_decide.
Qed.

Lemma attempt_requests url retry a : requests (attempt_actions url retry a).1 = 1%nat.
Proof.
  destruct a as [e|st [body|e]]; simpl; try done; by case_bool_decide.
Qed.

Lemma attempt_inserts url retry a : inserts (attempt_actions url retry a).1 = 0%nat.
Proof.
  destruct a as [e|st [body|e]]; simpl; try done; by case_bool_decide.
Qed.

(** The three passes of the loop, one after the other. *)
Lemma script_fetch_url keys tid url n c :
  script keys tid (fetch_url url) n c =
    let '(a0, f0) := attempt_actions url 0 (net tid n) in
    match f0 with
    | Return o => (a0, Ok o)
    | Continue =>
        let '(a1, f1) := attempt_actions url 1 (net tid (S n)) in
        match f1 with
        | Return o => (a0 ++ a1, Ok o)
        | Continue =>
            let '(a2, f2) := attempt_actions url 2 (net tid (S (S n))) in
            (a0 ++ a1 ++ a2,
             Ok (match f2 with Return o => o | Continue => None end))
        end
    end.
Proof.
  unfold fetch_url. change (seqZ 0 max_retries) with [0; 1; 2].
  rewrite script_for_in_cons, script_fetch_attempt.
  pose proof (attempt_requests url 0 (net tid n)) as Hr0.
  pose proof (attempt_inserts url 0 (net tid n)) as Hi0.
  destruct (attempt_actions url 0 (net tid n)) as [a0 [|o0]]; [|done].
  simpl in Hr0, Hi0. rewrite Hr0, Hi0, Nat.add_1_r, Nat.add_0_r.
  rewrite script_for_in_cons, script_fetch_attempt.
  pose proof (attempt_requests url 1 (net tid (S n))) as Hr1.
  pose proof (attempt_inserts url 1 (net tid (S n))) as Hi1.
  destruct (attempt_actions url 1 (net tid (S n))) as [a1 [|o1]]; [|done].
  simpl in Hr1, Hi1. rewrite Hr1, Hi1, Nat.add_1_r, Nat.add_0_r.
  rewrite script_for_in_cons, script_fetch_attempt.
  destruct (attempt_actions url 2 (net tid (S (S n)))) as [a2 [|o2]]; [|done].
  simpl. by rewrite app_nil_r.
Qed.

(** *** Actions that leave the sink alone *)

Lemma quiet_stored acts : forallb quiet_action acts = true → stored acts = [].
Proof.
  induction acts as [|a acts IH]; [done|]. simpl.
  intros [Ha Hq]%andb_true_iff. rewrite (IH Hq). by destruct a.
Qed.

Lemma quiet_appended acts key : forallb quiet_action acts = true → appended key acts = [].
Proof.
  induction acts as [|a acts IH]; [done|]. simpl.
  intros [Ha Hq]%andb_true_iff. rewrite (IH Hq). by destruct a.
Qed.

Lemma quiet_inserts acts : forallb quiet_action acts = true → inserts acts = 0%nat.
Proof.
  induction acts as [|a acts IH]; [done|]. unfold inserts in *. simpl.
  intros [Ha Hq]%andb_true_iff. specialize (IH Hq). by destruct a.
Qed.

Lemma quiet_no_failure acts row e :
  forallb quiet_action acts = true → StoreFailed row e ∉ acts.
Proof.
  intros Hq Hin. rewrite forallb_forall in Hq.
  apply list_elem_of_In, Hq in Hin. done.
Qed.

Lemma quiet_sound {A} acts (r : result A) :
  forallb quiet_action acts = true → sound (acts, r).
Proof.
  intros Hq. split; simpl.
  - intros key. by rewrite quiet_appended, quiet_stored.
  - intros row e Hin. by apply quiet_no_failure in Hin.
Qed.

Lemma attempt_quiet url retry a :
  forallb quiet_action (attempt_actions url retry a).1 = true.
Proof.
  destruct a as [e|st [body|e]]; simpl; try done; by case_bool_decide.
Qed.

Lemma requests_app a1 a2 : requests (a1 ++ a2) = (requests a1 + requests a2)%nat.
Proof. unfold requests. by rewrite List.filter_app, length_app. Qed.

Lemma inserts_app a1 a2 : inserts (a1 ++ a2) = (inserts a1 + inserts a2)%nat.
Proof. unfold inserts. by rewrite List.filter_app, length_app. Qed.

Lemma awaits_app a1 a2 : awaits (a1 ++ a2) = (awaits a1 + awaits a2)%nat.
Proof. unfold awaits. by rewrite List.filter_app, length_app. Qed.

Lemma successes_app a1 a2 : successes (a1 ++ a2) = (successes a1 + successes a2)%nat.
Proof. unfold successes. by rewrite List.filter_app, length_app. Qed.

Lemma attempt_facts url retry a :
  (awaits (attempt_actions url retry a).1 ≤ 2)%nat ∧
  successes (attempt_actions url retry a).1 =
    match (attempt_actions url retry a).2 with
    | Return (Some _) => 1%nat
    | _ => 0%nat
    end.
Proof.
  unfold attempt_actions, last_retry, awaits, successes.
  destruct a as [e|st [body|e]]; simpl.
  - split; [lia|]. by case_bool_decide.
  - case_bool_decide; simpl.
    + rewrite bool_decide_eq_true_2 by done. simpl. split; [lia|done].
    + rewrite bool_decide_eq_false_2 by done. simpl. split; [lia|done].
  - case_bool_decide; simpl; [|split; [lia|done]].
    split; [lia|]. by case_bool_decide.
Qed.

(** What [fetch_url] does: it returns, with a body or [None]; it leaves the
    sink alone; it makes one to three requests and awaits six times at most;
    a body comes from exactly one request that gave a page, [None] from
    none. *)
Lemma fetch_url_facts keys tid url n c :
  ∃ acts o,
    script keys tid (fetch_url url) n c = (acts, Ok o) ∧
    forallb quiet_action acts = true ∧
    (1 ≤ requests acts ≤ 3)%nat ∧
    (awaits acts ≤ 6)%nat ∧
    successes acts = match o with Some _ => 1%nat | None => 0%nat end.
Proof.
  rewrite script_fetch_url.
  pose proof (attempt_quiet url 0 (net tid n)) as Hq0.
  pose proof (attempt_requests url 0 (net tid n)) as Hr0.
  pose proof (attempt_facts url 0 (net tid n)) as [Ha0 Hs0].
  pose proof (attempt_quiet url 1 (net tid (S n))) as Hq1.
  pose proof (attempt_requests url 1 (net tid (S n))) as Hr1.
  pose proof (attempt_facts url 1 (net tid (S n))) as [Ha1 Hs1].
  pose proof (attempt_quiet url 2 (net tid (S (S n)))) as Hq2.
  pose proof (attempt_requests url 2 (net tid (S (S n)))) as Hr2.
  pose proof (attempt_facts url 2 (net tid (S (S n)))) as [Ha2 Hs2].
  destruct (attempt_actions url 0 (net tid n)) as [a0 [|o0]]; simpl in *.
  2:{ exists a0, o0. repeat split; try done; lia. }
  destruct (attempt_actions url 1 (net tid (S n))) as [a1 [|o1]]; simpl in *.
  2:{ exists (a0 ++ a1), o1.
      rewrite forallb_app, requests_app, awaits_app, successes_app, Hq0, Hq1.
      repeat split; try done; lia. }
  destruct (attempt_actions url 2 (net tid (S (S n)))) as [a2 f2]; simpl in *.
  eexists (a0 ++ a1 ++ a2), _.
  rewrite !forallb_app, !requests_app, !awaits_app, !successes_app, Hq0, Hq1, Hq2.
  split; [done|]. repeat split; try done; try lia.
  rewrite Hs0, Hs1, Hs2. by destruct f2 as [|[]].
Qed.

Lemma script_fetch_url_indep keys keys' tid url n c c' :
  script keys tid (fetch_url url) n c = script keys' tid (fetch_url url) n c'.
Proof. by rewrite !script_fetch_url. Qed.

(** When the three requests fail, there are three requests and [None] is
    returned; the sleeps are those after the answers with a status other
    than 200, the third request included. *)
Lemma fetch_url_exhausted keys tid url n c :
  failed_attempt (net tid n) →
  failed_attempt (net tid (S n)) →
  failed_attempt (net tid (S (S n))) →
  ∃ acts,
    script keys tid (fetch_url url) n c = (acts, Ok None) ∧
    requests acts = 3%nat ∧
    slept acts = backoff 0 (net tid n) ++ backoff 1 (net tid (S n))
                 ++ backoff 2 (net tid (S (S n))).
Proof.
  rewrite script_fetch_url. unfold attempt_actions, backoff, failed_attempt, last_retry.
  destruct (net tid n) as [e0|st0 [b0|e0]];
    destruct (net tid (S n)) as [e1|st1 [b1|e1]];
    destruct (net tid (S (S n))) as [e2|st2 [b2|e2]];
    intros H0 H1 H2; simpl;
    rewrite ?bool_decide_eq_false_2 by done; simpl;
    repeat (case_bool_decide; simpl); try done;
    (eexists; split; [reflexivity|split; reflexivity]).
Qed.

(** *** The sink follows the storage *)

Lemma sound_bind {A B} keys tid (p : prog A) (f : A -> prog B) n c :
  sound (script keys tid p n c) →
  (∀ x n' c', sound (script keys tid (f x) n' c')) →
  sound (script keys tid (bind p f) n c).
Proof.
  intros Hp Hf. rewrite script_bind.
  destruct (script keys tid p n c) as [a1 [x|e]]; destruct Hp as [Hp1 Hp2];
    simpl in *.
  2:{ split; [done|]. intros row e' Hin.
      destruct (Hp2 _ _ Hin) as [Heq ?]. by simplify_eq. }
  specialize (Hf x (n + requests a1)%nat (c + inserts a1)%nat).
  destruct (script keys tid (f x) _ _) as [a2 r2]. destruct Hf as [Hf1 Hf2].
  split; simpl in *.
  - intros key. by rewrite appended_app, stored_app, contents_for_app, Hp1, Hf1.
  - intros row e [Hin|Hin]%elem_of_app.
    + by destruct (Hp2 _ _ Hin).
    + destruct (Hf2 _ _ Hin) as [-> Hl]. split; [done|].
      destruct a2 as [|a a2]; [done|]. by rewrite last_app_cons.
Qed.

Lemma sound_for_each {A} keys tid (l : list A) body n c :
  (∀ a n' c', sound (script keys tid (body a) n' c')) →
  sound (script keys tid (for_each l body) n c).
Proof.
  intros Hb. revert n c. induction l as [|a l IH]; intros n c; simpl.
  - by apply quiet_sound.
  - apply sound_bind; [apply Hb|]. intros _ n' c'. apply IH.
Qed.

(** One item: [insert_data] first, the append after it. *)
Lemma sound_record keys tid url category key item n c :
  key ∈ keys → key_of category = key →
  sound (script keys tid (insert_data url category item;; results_append key item) n c).
Proof.
  intros Hk Hc. simpl. destruct (db c) as [e|]; simpl.
  - split; simpl; [done|]. intros row e' Hin.
    apply list_elem_of_singleton in Hin. by simplify_eq.
  - rewrite bool_decide_eq_true_2 by done. simpl. split; simpl.
    + intros key'. rewrite Hc. by case_bool_decide.
    + intros row e' Hin. rewrite !elem_of_cons, elem_of_nil in Hin.
      by destruct Hin as [?|[?|[]]].
Qed.

Lemma sound_extract_data keys tid url n c :
  has_keys keys → sound (script keys tid (extract_data url) n c).
Proof.
  intros (Hh & Ht & Hi & Hl). unfold extract_data.
  apply sound_bind.
  { destruct (fetch_url_facts keys tid url n c) as (acts & o & -> & Hq & _).
    by apply quiet_sound. }
  intros o n' c'. destruct (truthy o); [|by apply quiet_sound].
  repeat (apply sound_bind;
          [apply sound_for_each; intros; by apply sound_record|intros _ ? ?]).
  by apply quiet_sound.
Qed.

(** *** Properties of every action of a coroutine *)

Lemma script_bind_Forall {A B} (P : action → Prop) keys tid (p : prog A) (f : A -> prog B) n c :
  Forall P (script keys tid p n c).1 →
  (∀ x n' c', Forall P (script keys tid (f x) n' c').1) →
  Forall P (script keys tid (bind p f) n c).1.
Proof.
  intros Hp Hf. rewrite script_bind.
  destruct (script keys tid p n c) as [a1 [x|e]]; simpl in *; [|done].
  specialize (Hf x (n + requests a1)%nat (c + inserts a1)%nat).
  destruct (script keys tid (f x) _ _) as [a2 r2]. simpl in *.
  by apply Forall_app.
Qed.

Lemma script_for_each_Forall {A} (P : action → Prop) keys tid (l : list A) body n c :
  (∀ a n' c', Forall P (script keys tid (body a) n' c').1) →
  Forall P (script keys tid (for_each l body) n c).1.
Proof.
  intros Hb. revert n c. induction l as [|a l IH]; intros n c; simpl; [done|].
  apply script_bind_Forall; [apply Hb|]. intros _ n' c'. apply IH.
Qed.

Lemma record_sink_action keys tid url category key item n c :
  Forall (sink_action url)
    (script keys tid (insert_data url category item;; results_append key item) n c).1.
Proof.
  simpl. destruct (db c) as [e|]; simpl.
  - by repeat constructor.
  - case_bool_decide; simpl; by repeat constructor.
Qed.

Lemma sink_action_facts url acts :
  Forall (sink_action url) acts →
  requests acts = 0%nat ∧ awaits acts = 0%nat ∧ successes acts = 0%nat ∧
  Forall (λ r, row_url r = url) (stored acts).
Proof.
  unfold requests, awaits, successes.
  induction 1 as [|a acts Ha _ (IH1 & IH2 & IH3 & IH4)]; simpl; [done|].
  destruct a; simpl in *; try done. repeat split; try done. by constructor.
Qed.

(** The two branches of [if html_content]. *)
Lemma script_extract_data_falsy keys tid url n c fa o :
  script keys tid (fetch_url url) n c = (fa, Ok o) →
  truthy o = false →
  script keys tid (extract_data url) n c =
    (fa ++ [Logged ERROR (fetch_failed_message url)], Ok tt).
Proof.
  intros Hf Ho. unfold extract_data. rewrite script_bind, Hf, Ho. done.
Qed.

Lemma script_extract_data_truthy keys tid url n c fa o :
  script keys tid (fetch_url url) n c = (fa, Ok o) →
  truthy o = true →
  ∃ sa r,
    script keys tid (extract_data url) n c = (fa ++ sa, r) ∧
    Forall (sink_action url) sa.
Proof.
  intros Hf Ho. unfold extract_data. rewrite script_bind, Hf, Ho.
  match goal with
  | |- context [script keys tid ?p ?n' ?c'] =>
      assert (Forall (sink_action url) (script keys tid p n' c').1) as Hs;
      [|destruct (script keys tid p n' c') as [sa r]; by exists sa, r]
  end.
  repeat (apply script_bind_Forall;
          [apply script_for_each_Forall; intros; apply record_sink_action
          |intros _ ? ?]).
  simpl. by repeat constructor.
Qed.

(** A fetch that gives [None] or an empty body: the sink is not reached and
    the failure is logged. *)
Lemma run_extract_data_falsy tid url n s :
  truthy (match (run tid (fetch_url url) n s).1.1 with Ok o => o | Err _ => None end) = false →
  ∃ n' s',
    run tid (extract_data url) n s = (Ok tt, n', s') ∧
    table s' = table s ∧ results s' = results s ∧
    last (events s') = Some (tid, Logged ERROR (fetch_failed_message url)).
Proof.
  destruct (fetch_url_facts (dom (results s)) tid url n (db_calls s))
    as (fa & o & Hf & Hq & _).
  rewrite !run_script, Hf. cbn [fst snd]. intros Ho.
  rewrite (script_extract_data_falsy _ _ _ _ _ _ _ Hf Ho).
  eexists _, _. split; [done|].
  split; [|split].
  - by rewrite table_apply, stored_app, (quiet_stored _ Hq), app_nil_r.
  - apply results_apply_quiet. intros key.
    by rewrite appended_app, (quiet_appended _ _ Hq).
  - rewrite events_apply, map_app. simpl. by rewrite app_assoc, last_snoc.
Qed.

(** ** The claims on one unit of work *)

Lemma new_events_apply tid acts s :
  map snd (drop (length (events s)) (events (apply_actions tid acts s))) = acts.
Proof.
  rewrite events_apply, drop_app_length, map_map. simpl. apply map_id.
Qed.

(** C3. [extract_data] appends an item to [self.results] only after the
    [insert_data] of that item has succeeded: the items it adds under a key
    are the contents of the rows it adds to the table, in their order; and
    when an [insert_data] raises, [extract_data] raises that error at once,
    the failed call being the last thing it did. *)
Theorem extract_data_aggregate_follows_storage tid url n s :
  has_keys (dom (results s)) →
  ∃ r n' s' rows,
    run tid (extract_data url) n s = (r, n', s') ∧
    table s' = table s ++ rows ∧
    (∀ key, results s' !!! key = results s !!! key ++ contents_for key rows) ∧
    (∀ row e,
       (tid, StoreFailed row e) ∈ drop (length (events s)) (events s') →
       r = Err e ∧ last (events s') = Some (tid, StoreFailed row e)).
Proof.
  intros Hk. rewrite run_script.
  pose proof (sound_extract_data (dom (results s)) tid url n (db_calls s) Hk) as [Hs1 Hs2].
  destruct (script _ tid (extract_data url) n (db_calls s)) as [acts r]. simpl in *.
  exists r, (n + requests acts)%nat, (apply_actions tid acts s), (stored acts).
  split; [done|]. split; [apply table_apply|]. split.
  - intros key. by rewrite results_apply, Hs1.
  - intros row e. rewrite events_apply, drop_app_length.
    intros (a & Ha & Hin)%list_elem_of_fmap. simplify_eq.
    destruct (Hs2 _ _ Hin) as [-> Hl]. split; [done|].
    destruct acts as [|a acts _] using rev_ind; [done|].
    rewrite last_snoc in Hl. simplify_eq.
    rewrite map_app. simpl. by rewrite app_assoc, last_snoc.
Qed.

Lemma extract_data_after_fetch tid url n s :
  ∃ r n' s',
    run tid (extract_data url) n s = (r, n', s') ∧
    let acts := map snd (drop (length (events s)) (events s')) in
    match (run tid (fetch_url url) n s).1.1 with
    | Ok None =>
        r = Ok tt ∧ table s' = table s ∧ results s' = results s ∧
        stored acts = [] ∧ (∀ key, appended key acts = []) ∧ successes acts = 0%nat
    | Ok (Some body) =>
        successes acts = 1%nat ∧ Forall (λ row, row_url row = url) (stored acts)
    | Err _ => False
    end.
Proof.
  destruct (fetch_url_facts (dom (results s)) tid url n (db_calls s))
    as (fa & o & Hf & Hq & _ & _ & Hs).
  rewrite !run_script, Hf. cbn [fst snd].
  destruct (truthy o) eqn:Ho.
  - destruct (script_extract_data_truthy _ _ _ _ _ _ _ Hf Ho) as (sa & r & -> & Hsa).
    destruct o as [body|]; [|done].
    eexists _, _, _. split; [done|]. cbn zeta. rewrite new_events_apply.
    destruct (sink_action_facts _ _ Hsa) as (_ & _ & Hs0 & Hrows).
    rewrite successes_app, stored_app, Hs, Hs0, (quiet_stored _ Hq). done.
  - rewrite (script_extract_data_falsy _ _ _ _ _ _ _ Hf Ho).
    eexists _, _, _. split; [done|]. cbn zeta. rewrite new_events_apply.
    rewrite successes_app, stored_app, Hs, (quiet_stored _ Hq). simpl.
    destruct o as [body|].
    + split; [done|]. constructor.
    + split; [done|]. split.
      { by rewrite table_apply, stored_app, (quiet_stored _ Hq), app_nil_r. }
      split.
      { apply results_apply_quiet. intros key.
        by rewrite appended_app, (quiet_appended _ _ Hq). }
      split; [done|]. split; [|done].
      intros key. by rewrite appended_app, (quiet_appended _ _ Hq).
Qed.


(** C10. When [fetch_url] returns an empty body, which it does after a
    response with status 200, [extract_data] takes the branch of the failed
    fetch: it returns, the table and [self.results] are as before, and the
    last thing it does is to log that the fetch failed. *)
Theorem empty_body_is_a_failed_fetch tid url n s :
  (run tid (fetch_url url) n s).1.1 = Ok (Some "") →
  ∃ n' s',
    run tid (extract_data url) n s = (Ok tt, n', s') ∧
    table s' = table s ∧ results s' = results s ∧
    last (events s') = Some (tid, Logged ERROR (fetch_failed_message url)) ∧
    successes (map snd (drop (length (events s)) (events s'))) = 1%nat.
Proof.
  intros Hf.
  destruct (run_extract_data_falsy tid url n s) as (n' & s' & Hr & Ht & Hres & Hl).
  { by rewrite Hf. }
  exists n', s'. repeat (split; [done|]).
  destruct (extract_data_after_fetch tid url n s) as (r & n2 & s2 & Hr2 & Hm).
  rewrite Hr in Hr2. simplify_eq. rewrite Hf in Hm. apply Hm.
Qed.

(** ** The claim on the input *)

Lemma read_urls_result stdin urls console :
  match read_urls stdin urls console with
  | (Ok us, _) => us ≠ []
  | (Err e, _) => exn_kind_of e = EOFError
  end.
Proof.
  revert urls console. induction stdin as [|url stdin IH]; intros urls console; simpl; [done|].
  destruct (nonempty url); [apply IH|].
  destruct urls; [apply IH|done].
Qed.

Lemma run_pool_nil sched s : run_pool sched [] s = ([], s).
Proof. induction sched as [|i sched IH]; [done|]. simpl. apply IH. Qed.

Lemma first_failure_nil sched s first : first_failure sched [] s first = first.
Proof.
  revert first. induction sched as [|i sched IH]; intros first; [done|].
  simpl. rewrite IH. by destruct first.
Qed.

Lemma read_urls_no_url stdin console :
  Forall (eq "") stdin →
  ∃ e console', read_urls stdin [] console = (Err e, console').
Proof.
  intros Hno. revert console. induction Hno as [|url stdin <- _ IH]; intros console; simpl.
  - by eexists _, _.
  - apply IH.
Qed.

(** C5. [scrape_multiple_urls] on no URL at all returns at once and leaves
    the scraper as it was.  It is the loop of [main] that keeps an empty
    collection from it: for an empty line entered before any URL it prints
    its message and asks again, and what it hands over is never empty; when
    the user enters no URL at all, [main] ends and nothing has happened on
    the network. *)
Theorem empty_input_is_refused_by_main sched s stdin console :
  scrape_multiple_urls sched [] s = (Some (Ok tt), s) ∧
  read_urls ("" :: stdin) [] console =
    read_urls stdin [] (console ++ [prompt; "Please enter at least one URL."]) ∧
  match read_urls stdin [] console with
  | (Ok urls, _) => urls ≠ []
  | (Err e, _) => exn_kind_of e = EOFError
  end ∧
  (Forall (eq "") stdin →
   ∀ db_url rows s', (main sched db_url rows stdin).2 = Some s' → events s' = []).
Proof.
  split; [|split; [done|split; [apply read_urls_result|]]].
  - unfold scrape_multiple_urls, gather. simpl.
    by rewrite run_pool_nil, first_failure_nil.
  - intros Hno db_url rows s'. unfold main, new_scraper, setup_database.
    destruct (truthy db_url); [|done].
    destruct (read_urls_no_url stdin [] Hno) as (e & console' & ->).
    by intros [= <-].
Qed.

(** ** Further properties of [fetch_url] *)

Lemma db_calls_apply tid acts s :
  db_calls (apply_actions tid acts s) = (db_calls s + inserts acts)%nat.
Proof.
  induction acts as [|a acts IH] using rev_ind.
  - unfold inserts. simpl. lia.
  - rewrite apply_actions_snoc, inserts_app.
    unfold inserts at 2. destruct a; simpl; rewrite IH; lia.
Qed.

(** X1. Whatever the network does, [fetch_url] raises nothing: it returns a body
    or [None] after one to three requests, and it leaves the table and
    [self.results] as they were. *)
Theorem fetch_url_never_raises tid url n s :
  ∃ o n' s',
    run tid (fetch_url url) n s = (Ok o, n', s') ∧
    (n < n' ≤ n + 3)%nat ∧
    results s' = results s ∧ table s' = table s ∧ db_calls s' = db_calls s.
Proof.
  rewrite run_script.
  destruct (fetch_url_facts (dom (results s)) tid url n (db_calls s))
    as (acts & o & -> & Hq & Hr & _).
  eexists _, _, _. split; [done|]. split; [lia|]. split; [|split].
  - apply results_apply_quiet. intros key. by apply quiet_appended.
  - by rewrite table_apply, quiet_stored, app_nil_r.
  - rewrite db_calls_apply, quiet_inserts by done. lia.
Qed.

(** X2. [fetch_url] returns the body of the first of its three requests that
    gives a page, and [None] when none does; it makes no request after that
    one. *)
Theorem fetch_url_returns_first_page tid url n s :
  let answers := [net tid n; net tid (S n); net tid (S (S n))] in
  (run tid (fetch_url url) n s).1 =
    (Ok (first_page answers), (n + length (until_page answers))%nat).
Proof.
  intros answers. subst answers. rewrite run_script, script_fetch_url.
  unfold attempt_actions, last_retry, requests.
  destruct (net tid n) as [e0|st0 [b0|e0]]; simpl;
    repeat (case_bool_decide; simpl); try done;
    destruct (net tid (S n)) as [e1|st1 [b1|e1]]; simpl;
    repeat (case_bool_decide; simpl); try done;
    destruct (net tid (S (S n))) as [e2|st2 [b2|e2]]; simpl;
    repeat (case_bool_decide; simpl); done.
Qed.

(** What a run adds to the trace is the script of the program. *)
Lemma new_events_run {A} tid (p : prog A) n s :
  map snd (drop (length (events s)) (events (run tid p n s).2)) =
  (script (dom (results s)) tid p n (db_calls s)).1.
Proof.
  rewrite run_script.
  destruct (script (dom (results s)) tid p n (db_calls s)) as [acts r].
  simpl. apply new_events_apply.
Qed.

(** X3. The sleeps of [fetch_url]: [2 ^ k] seconds after each request [k] that
    was answered with a status other than 200, none after a request that
    raised; seven seconds in all at most. *)
Theorem fetch_url_sleeps tid url n s :
  let answers := [net tid n; net tid (S n); net tid (S (S n))] in
  let acts := map snd (drop (length (events s))
                            (events (run tid (fetch_url url) n s).2)) in
  slept acts = concat (zip_with backoff [0; 1; 2] (until_page answers)) ∧
  foldr Z.add 0 (slept acts) ≤ 7.
Proof.
  intros answers acts. subst answers acts.
  rewrite new_events_run, script_fetch_url.
  destruct (net tid n) as [e0|st0 [b0|e0]];
    destruct (net tid (S n)) as [e1|st1 [b1|e1]];
    destruct (net tid (S (S n))) as [e2|st2 [b2|e2]];
    unfold attempt_actions, last_retry, backoff, gives_page; simpl;
    repeat (case_bool_decide; simpl); try done;
    (split; [done|lia]).
Qed.

(** ** What [extract_data] leaves when the storage fails *)

Lemma stored_until_failure_all c rows :
  (stored_until_failure c rows).2 = None → (stored_until_failure c rows).1 = rows.
Proof.
  revert c. induction rows as [|r rows IH]; intros c; simpl; [done|].
  destruct (db c) as [e|]; [done|].
  specialize (IH (S c)). destruct (stored_until_failure (S c) rows) as [kept f].
  simpl in *. intros Hf. by rewrite IH.
Qed.

Lemma stored_until_failure_app c r1 r2 :
  stored_until_failure c (r1 ++ r2) =
    match (stored_until_failure c r1).2 with
    | Some e => stored_until_failure c r1
    | None =>
        (r1 ++ (stored_until_failure (c + length r1) r2).1,
         (stored_until_failure (c + length r1) r2).2)
    end.
Proof.
  revert c. induction r1 as [|r r1 IH]; intros c; simpl.
  - rewrite Nat.add_0_r. by destruct (stored_until_failure c r2).
  - destruct (db c) as [e|]; [done|]. rewrite IH.
    destruct (stored_until_failure (S c) r1) as [kept [e|]]; simpl; [done|].
    by rewrite Nat.add_succ_r.
Qed.

(** The rows before the first call that raises are stored, that of the
    call is not. *)
Lemma stored_until_failure_at c rows j e :
  (∀ i, (i < j)%nat → db (c + i) = None) → db (c + j) = Some e →
  (j < length rows)%nat →
  stored_until_failure c rows = (take j rows, Some e).
Proof.
  revert c j. induction rows as [|r rows IH]; intros c j Hok He Hj; simpl in *; [lia|].
  destruct j as [|j].
  - rewrite Nat.add_0_r in He. by rewrite He.
  - rewrite (IH (S c) j).
    + pose proof (Hok 0%nat ltac:(lia)) as H0. rewrite Nat.add_0_r in H0.
      by rewrite H0.
    + intros i Hi. rewrite <- (Hok (S i)) by lia. f_equal. lia.
    + rewrite <- He. f_equal. lia.
    + lia.
Qed.

Lemma hands_over_bind keys tid (p : prog unit) (f : unit -> prog unit) r1 r2 n c :
  hands_over r1 c (script keys tid p n c) →
  (∀ n', hands_over r2 (c + length r1) (script keys tid (f tt) n' (c + length r1))) →
  hands_over (r1 ++ r2) c (script keys tid (bind p f) n c).
Proof.
  intros (Hs & Hr & Hi) Hf. unfold hands_over in *.
  rewrite script_bind, stored_until_failure_app.
  pose proof (stored_until_failure_all c r1) as Hall.
  destruct (script keys tid p n c) as [a1 r]. simpl in *. subst r.
  destruct (stored_until_failure c r1) as [kept [e|]]; simpl in *; [done|].
  rewrite Hall in * by done. unfold calls_made in Hi. simpl in Hi. rewrite Hi.
  destruct (Hf (n + requests a1)%nat) as (Hs2 & Hr2 & Hi2).
  destruct (script keys tid (f tt) _ _) as [a2 r]. simpl in *. subst r.
  split; [|split]; simpl.
  - by rewrite stored_app, Hs, Hs2.
  - done.
  - rewrite inserts_app, Hi, Hi2. unfold calls_made. simpl.
    destruct (stored_until_failure (c + length r1) r2).2; rewrite length_app; lia.
Qed.

Lemma hands_over_record keys tid url category key l n c :
  key ∈ keys →
  hands_over (map (Row url category) l) c
    (script keys tid
       (for_each l (fun item => insert_data url category item;; results_append key item))
       n c).
Proof.
  intros Hk. revert n c. induction l as [|item l IH]; intros n c; [done|].
  change (map (Row url category) (item :: l))
    with ([Row url category item] ++ map (Row url category) l).
  cbn [for_each]. apply hands_over_bind.
  - unfold hands_over, calls_made. simpl.
    destruct (db c) as [e|]; simpl; [done|].
    by rewrite bool_decide_eq_true_2.
  - intros n'. apply IH.
Qed.

Lemma hands_over_extract_data keys tid url n c fa body :
  has_keys keys →
  script keys tid (fetch_url url) n c = (fa, Ok (Some body)) →
  nonempty body = true →
  ∃ sa r,
    script keys tid (extract_data url) n c = (fa ++ sa, r) ∧
    hands_over (rows_of url (BeautifulSoup body)) c (sa, r).
Proof.
  intros (Hh & Ht & Hi & Hl) Hf Hb.
  pose proof (fetch_url_facts keys tid url n c) as (fa' & o & Hf' & Hq & _).
  rewrite Hf in Hf'. simplify_eq.
  unfold extract_data. rewrite script_bind, Hf. simpl. rewrite Hb.
  rewrite (quiet_inserts _ Hq), Nat.add_0_r.
  match goal with
  | |- context [script keys tid ?p ?n' c] =>
      assert (hands_over (rows_of url (BeautifulSoup body)) c (script keys tid p n' c)) as Hh';
      [|destruct (script keys tid p n' c) as [sa r]; by exists sa, r]
  end.
  unfold rows_of.
  apply hands_over_bind; [by apply hands_over_record|intros ?].
  apply hands_over_bind; [by apply hands_over_record|intros ?].
  apply hands_over_bind; [by apply hands_over_record|intros ?].
  rewrite <- (app_nil_r (map (Row url "Link") _)).
  apply hands_over_bind; [by apply hands_over_record|intros ?].
  done.
Qed.

(** X4. When the call of [insert_data] for the row [j] of a page raises, the
    rows before it stay in the table, with their items in [self.results]:
    [extract_data] raises the exception of that call and takes nothing
    back. *)
Theorem extract_data_keeps_rows_before_failure tid url n s body j e :
  has_keys (dom (results s)) →
  (run tid (fetch_url url) n s).1.1 = Ok (Some body) →
  nonempty body = true →
  let rows := rows_of url (BeautifulSoup body) in
  (j < length rows)%nat →
  (∀ i, (i < j)%nat → db (db_calls s + i) = None) →
  db (db_calls s + j) = Some e →
  ∃ n' s',
    run tid (extract_data url) n s = (Err e, n', s') ∧
    table s' = table s ++ take j rows ∧
    (∀ key, results s' !!! key = results s !!! key ++ contents_for key (take j rows)) ∧
    db_calls s' = S (db_calls s + j).
Proof.
  intros Hk Hf Hb rows Hj Hok He. revert Hf. rewrite !run_script.
  destruct (fetch_url_facts (dom (results s)) tid url n (db_calls s))
    as (fa & o & Hf & Hq & _).
  rewrite Hf. cbn [fst snd]. intros [= ->].
  destruct (hands_over_extract_data _ _ _ _ _ _ _ Hk Hf Hb) as (sa & r & Hs & Hh).
  pose proof (sound_extract_data (dom (results s)) tid url n (db_calls s) Hk) as [Hsound _].
  rewrite Hs in Hsound |- *. simpl in Hsound.
  destruct Hh as (Hst & Hr & Hi). fold rows in Hst, Hr, Hi.
  rewrite (stored_until_failure_at _ _ j e) in Hst, Hr, Hi by done.
  simpl in *. subst r.
  assert (stored (fa ++ sa) = take j rows) as Hsto.
  { by rewrite stored_app, (quiet_stored _ Hq), Hst. }
  eexists _, _. split; [done|]. split; [|split].
  - by rewrite table_apply, Hsto.
  - intros key. by rewrite results_apply, Hsound, Hsto.
  - rewrite db_calls_apply, inserts_app, (quiet_inserts _ Hq), Hi.
    unfold calls_made. simpl. rewrite length_take. lia.
Qed.

(** X5. A key of [self.results] that is missing: [extract_data] raises a
    [KeyError] at the first heading, whose row is in the table by then and
    stays there, while [self.results] is as it was. *)
Theorem extract_data_missing_key tid url n s body heading headings :
  "Headings" ∉ dom (results s) →
  (run tid (fetch_url url) n s).1.1 = Ok (Some body) →
  nonempty body = true →
  headings_of (BeautifulSoup body) = heading :: headings →
  db (db_calls s) = None →
  ∃ e n' s',
    run tid (extract_data url) n s = (Err e, n', s') ∧
    exn_kind_of e = KeyError ∧
    table s' = table s ++ [Row url "Heading" heading] ∧
    results s' = results s.
Proof.
  intros Hk Hf Hb Hh Hdb. revert Hf. rewrite !run_script.
  destruct (fetch_url_facts (dom (results s)) tid url n (db_calls s))
    as (fa & o & Hf & Hq & _).
  rewrite Hf. cbn [fst snd]. intros [= ->].
  unfold extract_data. rewrite script_bind, Hf. simpl. rewrite Hb, Hh.
  cbn [for_each]. rewrite !script_bind. simpl.
  rewrite (quiet_inserts _ Hq), Nat.add_0_r, Hdb. simpl.
  rewrite bool_decide_eq_false_2 by done. simpl.
  eexists _, _, _. split; [done|]. split; [done|]. split.
  - by rewrite table_apply, stored_app, (quiet_stored _ Hq).
  - apply results_apply_quiet. intros key.
    by rewrite appended_app, (quiet_appended _ _ Hq).
Qed.

(** ** Nothing is taken away *)

Lemma extends_refl s : extends s s.
Proof. by repeat split. Qed.

Lemma extends_trans s1 s2 s3 : extends s1 s2 → extends s2 s3 → extends s1 s3.
Proof.
  intros (Hd & Hr & Ht & Hc & He) (Hd' & Hr' & Ht' & Hc' & He').
  split; [congruence|]. split; [|split; [|split]].
  - intros key. etrans; [apply Hr|apply Hr'].
  - etrans; [apply Ht|apply Ht'].
  - lia.
  - etrans; [apply He|apply He'].
Qed.

Lemma emit_extends tid a s : extends s (emit tid a s).
Proof. repeat split; try done. simpl. by apply prefix_app_r. Qed.

Lemma do_insert_extends tid r s : extends s (do_insert tid r s).2.
Proof.
  unfold do_insert. destruct (db (db_calls s)) as [e|]; simpl.
  - repeat split; simpl; try done; [lia|by apply prefix_app_r].
  - repeat split; simpl; try done; [by apply prefix_app_r|lia|by apply prefix_app_r].
Qed.

Lemma do_append_extends tid key item s : extends s (do_append tid key item s).2.
Proof.
  unfold do_append. destruct (results s !! key) as [l|] eqn:Hl; simpl;
    [|apply emit_extends].
  split; [|split; [|split; [|split]]]; simpl; try done.
  - rewrite dom_insert_L. apply subseteq_union_1_L, singleton_subseteq_l.
    by apply elem_of_dom_2 in Hl.
  - intros key'. destruct (decide (key = key')) as [<-|Hne].
    + rewrite lookup_total_insert_eq, (lookup_total_correct _ _ _ Hl).
      by apply prefix_app_r.
    + by rewrite lookup_total_insert_ne.
  - by apply prefix_app_r.
Qed.

Lemma run_extends {A} tid (p : prog A) n s : extends s (run tid p n s).2.
Proof.
  revert n s.
  induction p as [a|e|url k IH|secs k IH|lvl msg k IH|r k IH|key item k IH];
    intros n s; simpl; try apply extends_refl.
  - eapply extends_trans; [apply emit_extends|apply IH].
  - eapply extends_trans; [apply emit_extends|apply IH].
  - eapply extends_trans; [apply emit_extends|apply IH].
  - pose proof (do_insert_extends tid r s) as Hi.
    destruct (do_insert tid r s) as [x s1]. eapply extends_trans; [apply Hi|apply IH].
  - pose proof (do_append_extends tid key item s) as Hi.
    destruct (do_append tid key item s) as [x s1].
    eapply extends_trans; [apply Hi|apply IH].
Qed.

Lemma advance_extends tid p s : extends s (advance tid p s).2.
Proof.
  revert s.
  induction p as [a|e|url k IH|secs k IH|lvl msg k IH|r k IH|key item k IH];
    intros s; simpl; try apply extends_refl.
  - eapply extends_trans; [apply emit_extends|apply IH].
  - pose proof (do_insert_extends tid r s) as Hi.
    destruct (do_insert tid r s) as [x s1]. eapply extends_trans; [apply Hi|apply IH].
  - pose proof (do_append_extends tid key item s) as Hi.
    destruct (do_append tid key item s) as [x s1].
    eapply extends_trans; [apply Hi|apply IH].
Qed.

Lemma resume_extends t s : extends s (resume t s).2.
Proof.
  unfold resume. destruct (task_code t); simpl; try apply extends_refl.
  - match goal with
    | |- context [advance ?tid ?p ?s1] =>
        pose proof (advance_extends tid p s1) as Ha; destruct (advance tid p s1)
    end.
    eapply extends_trans; [apply emit_extends|apply Ha].
  - match goal with
    | |- context [advance ?tid ?p ?s1] =>
        pose proof (advance_extends tid p s1) as Ha; destruct (advance tid p s1)
    end.
    eapply extends_trans; [apply emit_extends|apply Ha].
Qed.

Lemma step_extends i pool s : extends s (step i pool s).2.
Proof.
  unfold step. destruct (pool !! i) as [t|]; [|apply extends_refl].
  pose proof (resume_extends t s) as Hr. by destruct (resume t s).
Qed.

Lemma run_pool_extends sched pool s : extends s (run_pool sched pool s).2.
Proof.
  revert pool s. induction sched as [|i sched IH]; intros pool s; simpl;
    [apply extends_refl|].
  pose proof (step_extends i pool s) as Hs. destruct (step i pool s) as [pool' s'].
  eapply extends_trans; [apply Hs|apply IH].
Qed.

Lemma start_extends tid progs s : extends s (start tid progs s).2.
Proof.
  revert tid s. induction progs as [|p progs IH]; intros tid s; simpl;
    [apply extends_refl|].
  pose proof (advance_extends tid p s) as Ha. destruct (advance tid p s) as [p' s1].
  pose proof (IH (S tid) s1) as Hs. destruct (start (S tid) progs s1) as [pool s2].
  by eapply extends_trans.
Qed.

Lemma scrape_multiple_urls_extends sched urls s :
  extends s (scrape_multiple_urls sched urls s).2.
Proof.
  unfold scrape_multiple_urls, gather.
  pose proof (start_extends 0 (map extract_data urls) s) as Hs.
  destruct (start 0 (map extract_data urls) s) as [pool s0].
  pose proof (run_pool_extends sched pool s0) as Hr.
  destruct (run_pool sched pool s0) as [pool' s']. simpl in *.
  by eapply extends_trans.
Qed.


(** ** The aggregate mirrors the table, in a batch as well *)

Lemma paired_bind {A B} keys due (p : prog A) (f : A -> prog B) :
  paired keys due p → (∀ x, paired keys None (f x)) → paired keys due (bind p f).
Proof.
  intros Hp Hf. revert due Hp.
  induction p as [a|e|url k IH|secs k IH|lvl msg k IH|r k IH|key item k IH];
    intros due Hp; simpl in *.
  - subst due. apply Hf.
  - done.
  - destruct Hp as [-> Hk]. split; [done|]. intros a. by apply IH.
  - destruct Hp as [-> Hk]. split; [done|]. by apply IH.
  - destruct Hp as [-> Hk]. split; [done|]. by apply IH.
  - destruct Hp as (-> & Hok & Herr). split; [done|]. split; [by apply IH|].
    intros e. by apply IH.
  - destruct Hp as (-> & Hk & Hok). split; [done|]. split; [done|]. by apply IH.
Qed.

Lemma paired_for_each {A} keys (l : list A) body :
  (∀ a, paired keys None (body a)) → paired keys None (for_each l body).
Proof.
  intros Hb. induction l as [|a l IH]; [done|].
  cbn [for_each]. by apply paired_bind.
Qed.

Lemma fetch_url_paired keys url : paired keys None (fetch_url url).
Proof.
  unfold fetch_url. induction (seqZ 0 max_retries) as [|retry l IH]; [done|].
  cbn [for_in]. apply paired_bind; [|by intros [|r]].
  unfold fetch_attempt, session_get, response_text. simpl. split; [done|].
  intros [e|st [body|e]]; simpl; repeat (case_bool_decide; simpl); done.
Qed.

Lemma record_paired keys url category key item :
  key ∈ keys → key_of category = key →
  paired keys None (insert_data url category item;; results_append key item).
Proof. intros Hk Hc. simpl. by rewrite Hc. Qed.

Lemma extract_data_paired keys url : has_keys keys → paired keys None (extract_data url).
Proof.
  intros (Hh & Ht & Hi & Hl). unfold extract_data.
  apply paired_bind; [apply fetch_url_paired|].
  intros o. destruct (truthy o); [|done].
  repeat (apply paired_bind;
          [apply paired_for_each; intros; by apply record_paired|intros _]).
  done.
Qed.

Lemma mirrors_emit due base k0 tid a s :
  mirrors due base k0 s → mirrors due base k0 (emit tid a s).
Proof. done. Qed.

Lemma advance_mirrors keys base k0 tid p s due :
  dom (results s) = keys → paired keys due p → mirrors due base k0 s →
  mirrors None base k0 (advance tid p s).2 ∧ paired keys None (advance tid p s).1.
Proof.
  revert s due.
  induction p as [a|e|url k IH|secs k IH|lvl msg k IH|r k IH|key item k IH];
    intros s due Hd Hp Hm; simpl in *.
  - by subst due.
  - by subst due.
  - destruct Hp as [-> Hk]. by split.
  - destruct Hp as [-> Hk]. by split.
  - destruct Hp as [-> Hk]. by apply (IH (emit tid (Logged lvl msg) s) None).
  - destruct Hp as (-> & Hok & Herr). unfold do_insert.
    destruct (db (db_calls s)) as [e|].
    + match goal with |- context [advance tid _ ?s1] => apply (IH (Err e) s1 None) end;
        done.
    + match goal with
      | |- context [advance tid _ ?s1] =>
          apply (IH (Ok tt) s1 (Some (key_of (row_category r), row_content r)))
      end; [done|done|].
      destruct Hm as [Hk0 Hm]. split; simpl; [rewrite length_app; lia|].
      intros key. rewrite drop_app_le, contents_for_app by done.
      rewrite app_assoc, <- Hm, app_nil_r. f_equal. simpl. by case_bool_decide.
  - destruct Hp as (-> & Hk & Hok). unfold do_append.
    rewrite <- Hd in Hk. apply elem_of_dom in Hk as [l Hl]. rewrite Hl.
    match goal with |- context [advance tid _ ?s1] => apply (IH (Ok tt) s1 None) end.
    + simpl. rewrite dom_insert_L, Hd. apply subseteq_union_1_L, singleton_subseteq_l.
      rewrite <- Hd. by apply elem_of_dom_2 in Hl.
    + done.
    + destruct Hm as [Hk0 Hm]. split; [done|]. simpl. intros key'.
      rewrite app_nil_r, <- Hm. case_bool_decide as Hkey.
      * subst key'. by rewrite lookup_total_insert_eq, (lookup_total_correct _ _ _ Hl).
      * by rewrite lookup_total_insert_ne, app_nil_r.
Qed.

Lemma resume_mirrors keys base k0 t s :
  dom (results s) = keys → paired keys None (task_code t) → mirrors None base k0 s →
  mirrors None base k0 (resume t s).2 ∧ paired keys None (task_code (resume t s).1).
Proof.
  destruct t as [tid p n]. unfold resume. simpl. intros Hd Hp Hm.
  destruct p as [a|e|url k|secs k|lvl msg k|r k|key item k]; try done; simpl in *.
  - destruct Hp as [_ Hk].
    pose proof (advance_mirrors keys base k0 tid (k (net tid n))
                  (emit tid (Requested url (net tid n)) s) None Hd (Hk _) Hm) as Ha.
    by destruct (advance _ _ _).
  - destruct Hp as [_ Hk].
    pose proof (advance_mirrors keys base k0 tid k (emit tid (Slept secs) s) None Hd Hk Hm)
      as Ha.
    by destruct (advance _ _ _).
Qed.

Lemma run_pool_mirrors keys base k0 sched pool s :
  dom (results s) = keys →
  Forall (λ t, paired keys None (task_code t)) pool →
  mirrors None base k0 s →
  mirrors None base k0 (run_pool sched pool s).2.
Proof.
  revert pool s. induction sched as [|i sched IH]; intros pool s Hd Hall Hm; [done|].
  simpl. destruct (step_extends i pool s) as [Hd' _].
  assert (mirrors None base k0 (step i pool s).2 ∧
          Forall (λ t, paired keys None (task_code t)) (step i pool s).1) as [Hm' Hall'].
  { unfold step. destruct (pool !! i) as [t|] eqn:Hi; [|done].
    destruct (resume_mirrors keys base k0 t s Hd (Forall_lookup_1 _ _ _ _ Hall Hi) Hm)
      as [Hm' Hp'].
    destruct (resume t s) as [t' s']. simpl in *. split; [done|]. by apply Forall_insert. }
  destruct (step i pool s) as [pool' s']. simpl in *.
  apply IH; [congruence|done|done].
Qed.

Lemma start_mirrors keys base k0 tid progs s :
  dom (results s) = keys →
  Forall (paired keys None) progs →
  mirrors None base k0 s →
  mirrors None base k0 (start tid progs s).2 ∧
  Forall (λ t, paired keys None (task_code t)) (start tid progs s).1.
Proof.
  revert tid s. induction progs as [|p progs IH]; intros tid s Hd Hall Hm; simpl; [done|].
  apply Forall_cons in Hall as [Hp Hall].
  destruct (advance_mirrors keys base k0 tid p s None Hd Hp Hm) as [Hm1 Hp1].
  destruct (advance_extends tid p s) as [Hd1 _].
  destruct (advance tid p s) as [p' s1]. simpl in *.
  destruct (IH (S tid) s1 ltac:(congruence) Hall Hm1) as [Hm2 Hall2].
  destruct (start (S tid) progs s1) as [pool s2]. simpl in *.
  split; [done|]. by constructor.
Qed.

(** X7. In a batch as in one unit of work, an item is in [self.results] when
    and only when its row is in the table: whatever the network and the
    storage do and whatever the order of the completions, at each moment of
    [scrape_multiple_urls], and when it raises as well, each list of
    [self.results] is what it was followed by the contents of the rows of
    its category that the table has got since, in their order. *)
Theorem batch_aggregate_follows_storage sched urls s key :
  has_keys (dom (results s)) →
  let s' := (scrape_multiple_urls sched urls s).2 in
  results s' !!! key =
    results s !!! key ++ contents_for key (drop (length (table s)) (table s')).
Proof.
  intros Hk s'. subst s'. unfold scrape_multiple_urls, gather.
  assert (mirrors None (results s) (length (table s)) s) as Hm.
  { split; [done|]. intros key'. by rewrite drop_all. }
  assert (Forall (paired (dom (results s)) None) (map extract_data urls)) as Hall.
  { apply Forall_fmap, Forall_true. intros url. by apply extract_data_paired. }
  destruct (start_mirrors _ _ _ 0 (map extract_data urls) s eq_refl Hall Hm) as [Hm0 Hall0].
  destruct (start_extends 0 (map extract_data urls) s) as [Hd0 _].
  destruct (start 0 (map extract_data urls) s) as [pool s0]. simpl in *.
  pose proof (run_pool_mirrors _ _ _ sched pool s0 Hd0 Hall0 Hm0) as [_ Hm'].
  destruct (run_pool sched pool s0) as [pool' s']. simpl in *.
  specialize (Hm' key). by rewrite app_nil_r in Hm'.
Qed.

(** ** The exceptions of a batch *)














(** ** The input loop of [main] *)

Lemma read_urls_blank_lines blanks stdin console :
  read_urls (replicate blanks "" ++ stdin) [] console =
    read_urls stdin []
      (console ++ concat (replicate blanks [prompt; "Please enter at least one URL."])).
Proof.
  revert console. induction blanks as [|blanks IH]; intros console; simpl.
  - by rewrite app_nil_r.
  - rewrite IH. by rewrite <- app_assoc.
Qed.

Lemma read_urls_lines urls typed rest console :
  Forall (λ url, nonempty url = true) typed → urls ++ typed ≠ [] →
  read_urls (typed ++ "" :: rest) urls console =
    (Ok (urls ++ typed), console ++ replicate (S (length typed)) prompt).
Proof.
  intros Hne. revert urls console.
  induction Hne as [|url typed Hurl _ IH]; intros urls console Hsome; simpl.
  - rewrite app_nil_r in *. by destruct urls.
  - rewrite Hurl, IH by (by rewrite <- app_assoc).
    by rewrite <- !app_assoc.
Qed.

Lemma read_urls_unterminated urls typed console :
  Forall (λ url, nonempty url = true) typed →
  read_urls typed urls console =
    (Err (Exn EOFError "EOF when reading a line"),
     console ++ replicate (S (length typed)) prompt).
Proof.
  intros Hne. revert urls console.
  induction Hne as [|url typed Hurl _ IH]; intros urls console; simpl; [done|].
  rewrite Hurl, IH. by rewrite <- !app_assoc.
Qed.

(** X9. The loop of [main] hands over the lines that were typed before the
    first empty line that follows a URL, in their order; it asks again,
    with its message, for each empty line typed before the first URL, and
    it reads nothing of what comes after. *)
Theorem read_urls_returns_the_lines_typed blanks typed rest console :
  typed ≠ [] → Forall (λ url, nonempty url = true) typed →
  read_urls (replicate blanks "" ++ typed ++ "" :: rest) [] console =
    (Ok typed,
     console ++ concat (replicate blanks [prompt; "Please enter at least one URL."])
             ++ replicate (S (length typed)) prompt).
Proof.
  intros Hsome Hne. rewrite read_urls_blank_lines, read_urls_lines by done.
  by rewrite <- app_assoc.
Qed.

(** X10. An input that ends before an empty line has followed the URLs: [main]
    prints the error of [input] and ends, and no URL that was typed has
    been requested. *)
Theorem unterminated_input_scrapes_nothing sched db_url rows blanks typed s :
  new_scraper db_url rows = Ok s →
  Forall (λ url, nonempty url = true) typed →
  ∃ console,
    main sched db_url rows (replicate blanks "" ++ typed) =
      (console ++ ["An error occurred: EOF when reading a line"], Some s) ∧
    events s = [].
Proof.
  intros Hs Hne. unfold main. rewrite Hs, read_urls_blank_lines, read_urls_unterminated by done.
  eexists. split; [done|].
  unfold new_scraper in Hs. destruct (setup_database db_url); by simplify_eq.
Qed.

(** ** The end of [main] *)

Lemma save_to_csv_raises filename s w :
  save_to_csv filename s w =
    (Some (NameError "csv"),
     World (console w) (logged w) (<[filename := ""]> (files w)) (connected w)).
Proof. reflexivity. Qed.

Lemma reports_raise s w :
  reports s w =
    (Some (NameError "csv"),
     World (console w ++ display_lines s) (logged w)
           (<["scraped_data.csv" := ""]> (files w)) (connected w)).
Proof. reflexivity. Qed.

(** [main_complete] goes on where [main] stops: the same scraper, and the
    lines of [main] first. *)
Lemma main_complete_main sched db_url rows stdin files0 w o :
  main_complete sched db_url rows stdin files0 = Some (w, o) →
  o = (main sched db_url rows stdin).2 ∧
  (main sched db_url rows stdin).1 `prefix_of` console w.
Proof.
  unfold main_complete, main.
  destruct (new_scraper db_url rows) as [s0|e]; [|by intros [= <- <-]].
  destruct (read_urls stdin [] []) as [[urls|e] lines]; [|by intros [= <- <-]].
  destruct (scrape_multiple_urls sched urls s0) as [[[[]|e]|] s]; [| |done].
  - rewrite reports_raise. intros [= <- <-]. split; [done|]. simpl.
    rewrite <- app_assoc. by apply prefix_app_r.
  - by intros [= <- <-].
Qed.




(** X14. When the scrape has returned, [main] prints the first items of each
    category and then fails: [save_to_csv] uses the name [csv], which the
    module does not bind.  The file [scraped_data.csv] is left empty, the
    rows of the table are not printed, the last line is the message of the
    second handler and not that of the success, and the connection is
    closed. *)
Theorem main_stops_at_the_csv sched db_url rows stdin files0 s0 urls lines s :
  new_scraper db_url rows = Ok s0 →
  read_urls stdin [] [] = (Ok urls, lines) →
  scrape_multiple_urls sched urls s0 = (Some (Ok tt), s) →
  main_complete sched db_url rows stdin files0 =
    Some (World (lines
                 ++ ["Extracting data from " +:+ pretty (length urls) +:+ " URL(s)..."]
                 ++ display_lines s
                 ++ ["An error occurred: name 'csv' is not defined"])
                [] (<["scraped_data.csv" := ""]> files0) false,
          Some s).
Proof.
  intros Hs Hu Hr. unfold main_complete. rewrite Hs, Hu, Hr, reports_raise.
  unfold print, close_database, report_msg.
  cbn [console logged files connected]. by rewrite <- !app_assoc.
Qed.


(** ** The pool of tasks

    From here on no call of [insert_data] raises. *)

Hypothesis db_never_raises : ∀ c, db c = None.

Lemma script_db_indep {A} keys tid (p : prog A) n c c' :
  script keys tid p n c = script keys tid p n c'.
Proof.
  revert n c c'.
  induction p as [a|e|url k IH|secs k IH|lvl msg k IH|r k IH|key item k IH];
    intros n c c'; simpl; try done.
  - by rewrite (IH _ _ c c').
  - by rewrite (IH _ c c').
  - by rewrite (IH _ c c').
  - by rewrite !db_never_raises, (IH _ _ (S c) (S c')).
  - case_bool_decide; by rewrite (IH _ _ c c').
Qed.

Lemma script_record keys tid url category key item n c :
  key ∈ keys →
  script keys tid (insert_data url category item;; results_append key item) n c =
    ([Stored (Row url category item); Appended key item], Ok tt).
Proof.
  intros Hk. simpl. rewrite db_never_raises. simpl.
  by rewrite bool_decide_eq_true_2.
Qed.

Lemma script_for_each_record keys tid url category key l n c :
  key ∈ keys →
  script keys tid
    (for_each l (fun item => insert_data url category item;; results_append key item))
    n c = (record_actions url category key l, Ok tt).
Proof.
  intros Hk. revert n c. induction l as [|item l IH]; intros n c; [done|].
  cbn [for_each]. rewrite script_bind, script_record by done.
  cbn [fst snd]. by rewrite IH.
Qed.

Lemma script_extract_data_ok keys tid url n c :
  has_keys keys →
  script keys tid (extract_data url) n c =
    let '(fa, fr) := script keys tid (fetch_url url) n c in
    match fr with
    | Ok o =>
        (fa ++ (if truthy o then page_actions url (BeautifulSoup (default "" o))
                else [Logged ERROR (fetch_failed_message url)]), Ok tt)
    | Err e => (fa, Err e)
    end.
Proof.
  intros (Hh & Ht & Hi & Hl). unfold extract_data. rewrite script_bind.
  destruct (script keys tid (fetch_url url) n c) as [fa [o|e]]; [|done].
  destruct (truthy o); [|done].
  do 4 (rewrite script_bind, script_for_each_record by done).
  unfold page_actions. done.
Qed.

Lemma appended_record_actions key' url category key l :
  appended key' (record_actions url category key l) =
    if bool_decide (key = key') then l else [].
Proof.
  induction l as [|item l IH]; simpl.
  - by case_bool_decide.
  - rewrite IH. by case_bool_decide.
Qed.

Lemma stored_record_actions url category key l :
  stored (record_actions url category key l) = map (Row url category) l.
Proof. induction l as [|item l IH]; simpl; by rewrite ?IH. Qed.

Lemma appended_page_actions key url soup :
  appended key (page_actions url soup) = items key url soup.
Proof.
  unfold page_actions, items. rewrite !appended_app, !appended_record_actions. simpl.
  repeat case_bool_decide; simplify_eq; by rewrite ?app_nil_r.
Qed.

Lemma stored_page_actions url soup : stored (page_actions url soup) = rows_of url soup.
Proof.
  unfold page_actions, rows_of. rewrite !stored_app, !stored_record_actions. simpl.
  by rewrite app_nil_r.
Qed.

(** What a unit of work does in all: it returns, it awaits six times at
    most, and it appends the items and stores the rows of its page. *)
Lemma extract_data_contribution keys tid url :
  has_keys keys →
  ∃ acts,
    script keys tid (extract_data url) 0 0 = (acts, Ok tt) ∧
    (awaits acts ≤ 6)%nat ∧
    (∀ key, appended key acts = page_items key tid url) ∧
    stored acts = page_rows tid url.
Proof.
  intros Hk. rewrite script_extract_data_ok by done.
  unfold page_items, page_rows, fetched.
  rewrite (script_fetch_url_indep ∅ keys tid url 0 0 0).
  destruct (fetch_url_facts keys tid url 0 0) as (fa & o & -> & Hq & _ & Ha & _).
  cbn [fst snd]. eexists. split; [done|].
  rewrite awaits_app, stored_app, (quiet_stored _ Hq).
  destruct (truthy o); simpl.
  - split; [|split].
    + unfold page_actions. rewrite !awaits_app.
      assert (∀ c k l, awaits (record_actions url c k l) = 0%nat) as Hz.
      { intros c k l. unfold awaits. induction l; simpl; [done|]. done. }
      rewrite !Hz. unfold awaits at 2. simpl. lia.
    + intros key. by rewrite appended_app, (quiet_appended _ _ Hq), appended_page_actions.
    + apply stored_page_actions.
  - split; [unfold awaits at 2; simpl; lia|]. split; [|done].
    intros key. by rewrite appended_app, (quiet_appended _ _ Hq).
Qed.

(** *** One turn of a task *)

Lemma advance_spec tid p s :
  ∃ acts,
    (advance tid p s).2 = apply_actions tid acts s ∧
    dom (results (advance tid p s).2) = dom (results s) ∧
    awaits acts = 0%nat ∧
    settled (advance tid p s).1 = true ∧
    ∀ n c,
      script (dom (results s)) tid p n c =
        (acts ++ (script (dom (results s)) tid (advance tid p s).1 n c).1,
         (script (dom (results s)) tid (advance tid p s).1 n c).2).
Proof.
  revert s.
  induction p as [a|e|url k IH|secs k IH|lvl msg k IH|r k IH|key item k IH]; intros s;
    try (exists []; simpl; repeat split; try done;
         intros n c; by destruct (script _ _ _ _ _)).
  - destruct (IH (emit tid (Logged lvl msg) s)) as (acts & Hs & Hd & Ha & Hp & Hscr).
    simpl in Hs, Hd, Hscr |- *.
    exists (Logged lvl msg :: acts). repeat split; try done.
    intros n c. rewrite (Hscr n c). done.
  - simpl. unfold do_insert. rewrite db_never_raises.
    match goal with
    | |- context [advance tid (k (Ok tt)) ?s1] =>
        destruct (IH (Ok tt) s1) as (acts & Hs & Hd & Ha & Hp & Hscr)
    end.
    exists (cons (Stored r) acts). repeat split; try done.
    intros n c. rewrite db_never_raises. simpl in Hscr. rewrite (Hscr n (S c)).
    by rewrite (script_db_indep _ _ _ _ (S c) c).
  - simpl. unfold do_append. destruct (results s !! key) as [l|] eqn:Hl.
    + match goal with
      | |- context [advance tid (k (Ok tt)) ?s1] =>
          destruct (IH (Ok tt) s1) as (acts & Hs & Hd & Ha & Hp & Hscr)
      end.
      assert (dom (<[key:=l ++ [item]]> (results s)) = dom (results s)) as Hdom.
      { rewrite dom_insert_L. apply subseteq_union_1_L, singleton_subseteq_l.
        by apply elem_of_dom_2 in Hl. }
      simpl in Hd, Hscr. rewrite Hdom in Hd, Hscr.
      exists (Appended key item :: acts). split; [|split; [done|split; [done|split; [done|]]]].
      * rewrite Hs. unfold apply_actions. simpl. unfold apply_action at 2. simpl.
        by rewrite (lookup_total_correct _ _ _ Hl).
      * intros n c. rewrite bool_decide_eq_true_2 by (by apply elem_of_dom).
        rewrite (Hscr n c). done.
    + match goal with
      | |- context [advance tid (k ?x) ?s1] =>
          destruct (IH x s1) as (acts & Hs & Hd & Ha & Hp & Hscr)
      end.
      exists (AppendFailed key :: acts). repeat split; try done.
      intros n c. rewrite bool_decide_eq_false_2 by (by apply not_elem_of_dom).
      simpl in Hscr. rewrite (Hscr n c). done.
Qed.

Lemma resume_spec t s :
  settled (task_code t) = true →
  ∃ acts,
    (resume t s).2 = apply_actions (task_id t) acts s ∧
    dom (results (resume t s).2) = dom (results s) ∧
    task_id (resume t s).1 = task_id t ∧
    settled (task_code (resume t s).1) = true ∧
    awaits acts = (if finished t then 0 else 1)%nat ∧
    future (dom (results s)) t =
      (acts ++ (future (dom (results s)) (resume t s).1).1,
       (future (dom (results s)) (resume t s).1).2).
Proof.
  destruct t as [tid p n]. unfold resume, finished, future. simpl.
  destruct p as [a|e|url k|secs k|lvl msg k|r k|key item k]; try done; intros _.
  - exists []. by repeat split.
  - exists []. by repeat split.
  - destruct (advance_spec tid (k (net tid n)) (emit tid (Requested url (net tid n)) s))
      as (acts & Hs & Hd & Ha & Hp & Hscr).
    destruct (advance tid (k (net tid n)) _) as [p' s'] eqn:Hadv. simpl in *.
    exists (Requested url (net tid n) :: acts). repeat split; try done.
    + unfold awaits in *. simpl. by rewrite Ha.
    + by rewrite (Hscr (S n) 0%nat).
  - destruct (advance_spec tid k (emit tid (Slept secs) s))
      as (acts & Hs & Hd & Ha & Hp & Hscr).
    destruct (advance tid k _) as [p' s'] eqn:Hadv. simpl in *.
    exists (Slept secs :: acts). repeat split; try done.
    + unfold awaits in *. simpl. by rewrite Ha.
    + by rewrite (Hscr n 0%nat).
Qed.

(** *** The pool *)

Lemma concat_insert_perm {X} (L : list (list X)) i x b :
  L !! i = Some (x ++ b) → concat L ≡ₚ x ++ concat (<[i:=b]> L).
Proof.
  revert i. induction L as [|y L IH]; intros [|i] Hi; simplify_eq/=.
  - by rewrite app_assoc.
  - rewrite (IH _ Hi). by rewrite !app_assoc, (Permutation_app_comm y x).
Qed.

Lemma step_length i pool s : length (step i pool s).1 = length pool.
Proof.
  unfold step. destruct (pool !! i) as [t|]; [|done].
  destruct (resume t s). simpl. apply length_insert.
Qed.

Lemma step_other i j pool s : j ≠ i → (step i pool s).1 !! j = pool !! j.
Proof.
  intros Hj. unfold step. destruct (pool !! i) as [t|]; [|done].
  destruct (resume t s). simpl. by apply list_lookup_insert_ne.
Qed.

Lemma step_ok keys i pool s :
  pool_ok keys pool s → pool_ok keys (step i pool s).1 (step i pool s).2.
Proof.
  intros [Hd Hall]. unfold step. destruct (pool !! i) as [t|] eqn:Hi; [|done].
  destruct (Forall_lookup_1 _ _ _ _ Hall Hi) as [Hset Hok].
  destruct (resume_spec t s Hset) as (acts & Hs & Hd' & Hid & Hset' & Ha & Hfut).
  destruct (resume t s) as [t' s']. simpl in *. rewrite Hd in *. split; [done|].
  apply Forall_insert; [done|]. split; [done|]. by rewrite Hfut in Hok.
Qed.

Lemma step_pending {X} (obs : scraper → list X) f keys i pool s :
  tracks obs f → pool_ok keys pool s →
  obs (step i pool s).2 ++ pending f keys (step i pool s).1 ≡ₚ obs s ++ pending f keys pool.
Proof.
  intros (Hobs & Hf & _) [Hd Hall]. unfold step.
  destruct (pool !! i) as [t|] eqn:Hi; [|done].
  destruct (Forall_lookup_1 _ _ _ _ Hall Hi) as [Hset Hok].
  destruct (resume_spec t s Hset) as (acts & Hs & Hd' & Hid & Hset' & Ha & Hfut).
  destruct (resume t s) as [t' s']. simpl in *. rewrite Hd in *. subst s'.
  unfold pending. rewrite Hobs, list_fmap_insert.
  rewrite (concat_insert_perm (map _ pool) i (f (task_id t) acts)
             (f (task_id t') (future keys t').1)).
  - by rewrite app_assoc.
  - rewrite list_lookup_fmap, Hi. simpl. rewrite Hfut. simpl. by rewrite Hf, Hid.
Qed.

Lemma step_awaits keys i pool s t :
  pool_ok keys pool s → pool !! i = Some t →
  ∃ t', (step i pool s).1 !! i = Some t' ∧
        (awaits (future keys t').1 + (if finished t then 0 else 1))%nat
          = awaits (future keys t).1.
Proof.
  intros [Hd Hall] Hi. unfold step. rewrite Hi.
  destruct (Forall_lookup_1 _ _ _ _ Hall Hi) as [Hset Hok].
  destruct (resume_spec t s Hset) as (acts & Hs & Hd' & Hid & Hset' & Ha & Hfut).
  destruct (resume t s) as [t' s']. simpl in *. rewrite Hd in *.
  exists t'. split.
  - apply list_lookup_insert_eq. by apply lookup_lt_Some in Hi.
  - rewrite Hfut. simpl. rewrite awaits_app, Ha. lia.
Qed.

Lemma run_pool_length sched pool s : length (run_pool sched pool s).1 = length pool.
Proof.
  revert pool s. induction sched as [|i sched IH]; intros pool s; simpl; [done|].
  pose proof (step_length i pool s) as Hl.
  destruct (step i pool s) as [pool' s']. by rewrite IH.
Qed.

Lemma run_pool_ok keys sched pool s :
  pool_ok keys pool s → pool_ok keys (run_pool sched pool s).1 (run_pool sched pool s).2.
Proof.
  revert pool s. induction sched as [|i sched IH]; intros pool s Hok; simpl; [done|].
  pose proof (step_ok keys i pool s Hok) as Hok'.
  destruct (step i pool s) as [pool' s']. by apply IH.
Qed.

Lemma run_pool_pending {X} (obs : scraper → list X) f keys sched pool s :
  tracks obs f → pool_ok keys pool s →
  obs (run_pool sched pool s).2 ++ pending f keys (run_pool sched pool s).1
    ≡ₚ obs s ++ pending f keys pool.
Proof.
  intros Ht. revert pool s. induction sched as [|i sched IH]; intros pool s Hok; simpl; [done|].
  pose proof (step_ok keys i pool s Hok) as Hok'.
  pose proof (step_pending obs f keys i pool s Ht Hok) as Hp.
  destruct (step i pool s) as [pool' s']. simpl in *. by rewrite IH.
Qed.

(** No task raises, so [gather] has no exception to raise. *)
Lemma ok_no_failure keys pool s t :
  pool_ok keys pool s → t ∈ pool → failure t = None.
Proof.
  intros [_ Hall] Hin. rewrite Forall_forall in Hall.
  destruct (Hall t Hin) as [_ Hok]. unfold failure, future in *.
  by destruct (task_code t).
Qed.

Lemma first_failure_none keys sched pool s :
  pool_ok keys pool s → first_failure sched pool s None = None.
Proof.
  revert pool s. induction sched as [|i sched IH]; intros pool s Hok; simpl; [done|].
  pose proof (step_ok keys i pool s Hok) as Hok'.
  destruct (step i pool s) as [pool' s']. simpl in *.
  destruct (pool' !! i) as [t|] eqn:Hi; simpl; [|by apply IH].
  rewrite (ok_no_failure keys pool' s' t Hok'); [by apply IH|].
  by apply list_elem_of_lookup_2 in Hi.
Qed.

(** A task that has ended has nothing to come. *)
Lemma finished_pending {X} (f : nat → list action → list X) keys pool :
  (∀ tid, f tid [] = []) → forallb finished pool = true → pending f keys pool = [].
Proof.
  intros Hf. unfold pending. induction pool as [|t pool IH]; simpl; [done|].
  intros [Ht Hp]%andb_true_iff. rewrite (IH Hp), app_nil_r.
  unfold finished, future in *. destruct (task_code t); try done; simpl; apply Hf.
Qed.

Lemma finished_awaits keys t : finished t = true → awaits (future keys t).1 = 0%nat.
Proof. unfold finished, future. by destruct (task_code t). Qed.

(** A schedule that resumes every task as often as the task awaits brings
    every task to its end. *)
Lemma fair_finishes keys sched pool s :
  pool_ok keys pool s →
  (∀ i t, pool !! i = Some t →
          (awaits (future keys t).1 ≤ length (filter (eq i) sched))%nat) →
  forallb finished (run_pool sched pool s).1 = true.
Proof.
  revert pool s. induction sched as [|i sched IH]; intros pool s Hok Hfair; simpl.
  - apply forallb_forall. intros t Hin%list_elem_of_In.
    apply list_elem_of_lookup_1 in Hin as [i Hi].
    specialize (Hfair i t Hi). simpl in Hfair.
    destruct Hok as [_ Hall]. destruct (Forall_lookup_1 _ _ _ _ Hall Hi) as [Hset _].
    unfold finished, future, awaits in *.
    destruct (task_code t); try done; simpl in *.
    + destruct (script _ _ _ _ _); simpl in *; lia.
    + destruct (script _ _ _ _ _); simpl in *; lia.
  - pose proof (step_ok keys i pool s Hok) as Hok'.
    pose proof (step_length i pool s) as Hlen.
    pose proof (step_other i) as Hoth. specialize (Hoth) with (pool := pool) (s := s).
    pose proof (λ t, step_awaits keys i pool s t Hok) as Haw.
    destruct (step i pool s) as [pool' s']. simpl in *.
    apply IH; [done|]. intros j t' Hj.
    destruct (decide (j = i)) as [->|Hne].
    + assert (is_Some (pool !! i)) as [t Hi].
      { apply lookup_lt_is_Some. rewrite <- Hlen. by apply lookup_lt_Some in Hj. }
      destruct (Haw t Hi) as (t2 & Ht2 & Hcount). simplify_eq.
      specialize (Hfair i t Hi). rewrite filter_cons_True in Hfair by done.
      simpl in Hfair. pose proof (finished_awaits keys t) as Hz.
      destruct (finished t); [rewrite Hz in Hcount by done|]; lia.
    + rewrite Hoth in Hj by done. specialize (Hfair j t' Hj).
      rewrite filter_cons_False in Hfair by done. done.
Qed.

(** *** The pool of [scrape_multiple_urls] *)


Lemma advance_extract_data tid url s :
  advance tid (extract_data url) s = (extract_data url, s).
Proof. reflexivity. Qed.

Lemma start_extract_data tid0 urls s :
  start tid0 (map extract_data urls) s =
    (imap (λ i url, Task (tid0 + i) (extract_data url) 0) urls, s).
Proof.
  revert tid0. induction urls as [|url urls IH]; intros tid0; [done|].
  cbn [map start]. rewrite advance_extract_data, IH, imap_cons, Nat.add_0_r.
  do 2 f_equal. apply imap_ext. intros i x _. simpl. f_equal. lia.
Qed.

Lemma spawn_ok keys urls s :
  has_keys keys → dom (results s) = keys →
  pool_ok keys (imap (λ i url, Task i (extract_data url) 0) urls) s.
Proof.
  intros Hk Hd. split; [done|]. apply Forall_lookup. intros i t.
  rewrite list_lookup_imap. destruct (urls !! i) as [url|]; [|done].
  intros [= <-]. split; [done|].
  destruct (extract_data_contribution keys i url Hk) as (acts & Hs & _).
  unfold future. cbn [task_id task_code task_reqs]. by rewrite Hs.
Qed.

Lemma spawn_pending {X} (f : nat → list action → list X) keys urls :
  pending f keys (imap (λ i url, Task i (extract_data url) 0) urls) =
    concat (imap (λ i url, f i (script keys i (extract_data url) 0 0).1) urls).
Proof. unfold pending. by rewrite fmap_imap. Qed.

Lemma spawn_awaits keys urls i t :
  has_keys keys →
  imap (λ i url, Task i (extract_data url) 0) urls !! i = Some t →
  (i < length urls)%nat ∧ (awaits (future keys t).1 ≤ 6)%nat.
Proof.
  intros Hk. rewrite list_lookup_imap.
  destruct (urls !! i) as [url|] eqn:Hi; [|done]. intros [= <-].
  split; [by apply lookup_lt_Some in Hi|].
  destruct (extract_data_contribution keys i url Hk) as (acts & Hs & Ha & _).
  unfold future. cbn [task_id task_code task_reqs]. by rewrite Hs.
Qed.

(** What [scrape_multiple_urls] gives when [self.results] has its keys: it
    never raises; under a fair schedule it returns; and when it returns,
    the scraper holds, in some order, what it held and what every unit of
    work had to add. *)
Lemma scrape_multiple_urls_spec sched urls s :
  has_keys (dom (results s)) →
  ∃ o s',
    scrape_multiple_urls sched urls s = (o, s') ∧
    (∀ e, o ≠ Some (Err e)) ∧
    (fair (length urls) sched → o = Some (Ok tt)) ∧
    (o = Some (Ok tt) →
     ∀ X (obs : scraper → list X) f, tracks obs f →
       obs s' ≡ₚ
       obs s ++ concat (imap (λ i url,
                  f i (script (dom (results s)) i (extract_data url) 0 0).1) urls)).
Proof.
  intros Hk. unfold scrape_multiple_urls, gather.
  rewrite start_extract_data. simpl.
  set (pool0 := imap (λ i url, Task i (extract_data url) 0) urls).
  pose proof (spawn_ok (dom (results s)) urls s Hk eq_refl) as Hok. fold pool0 in Hok.
  assert (head (omap failure pool0) = None) as ->.
  { assert (omap failure pool0 = []) as ->; [|done].
    assert (∀ t, t ∈ pool0 → failure t = None) as Hnone.
    { intros t. by apply (ok_no_failure _ _ _ _ Hok). }
    clear Hok. induction pool0 as [|t pool0 IH]; [done|]. simpl.
    rewrite (Hnone t) by (by left). apply IH. intros t' Ht'. apply Hnone. by right. }
  rewrite (first_failure_none _ _ _ _ Hok).
  pose proof (run_pool_ok _ sched _ _ Hok) as Hok'.
  pose proof (λ X obs f Ht, run_pool_pending (X:=X) obs f _ sched _ _ Ht Hok) as Hpend.
  pose proof (fair_finishes _ sched _ _ Hok) as Hfair.
  destruct (run_pool sched pool0 s) as [pool' s']. simpl in *.
  eexists _, s'. split; [done|]. unfold outcome. split; [|split].
  - intros e. by destruct (forallb finished pool').
  - intros Hf. rewrite Hfair; [done|]. intros i t Hi.
    destruct (spawn_awaits _ _ _ _ Hk Hi) as [Hlt Ha].
    specialize (Hf i Hlt). lia.
  - destruct (forallb finished pool') eqn:Hfin; [|done]. intros _ X obs f Ht.
    specialize (Hpend X obs f Ht).
    rewrite finished_pending, app_nil_r in Hpend by (done || apply Ht).
    rewrite Hpend. unfold pool0. by rewrite spawn_pending.
Qed.

Lemma tracks_results key : tracks (λ s, results s !!! key) (λ _, appended key).
Proof.
  split; [|split]; [|intros; apply appended_app|done].
  intros tid acts s. apply results_apply.
Qed.

Lemma tracks_table : tracks table (λ _, stored).
Proof.
  split; [|split]; [|intros; apply stored_app|done].
  intros tid acts s. apply table_apply.
Qed.

Lemma tracks_events : tracks events (λ tid acts, map (pair tid) acts).
Proof.
  split; [|split]; [|intros; apply map_app|done].
  intros tid acts s. apply events_apply.
Qed.


Lemma length_concat_imap {A B} (g : nat → A → list B) l :
  length (concat (imap g l)) = sum_list (imap (λ i a, length (g i a)) l).
Proof.
  revert g. induction l as [|a l IH]; intros g; [done|].
  rewrite !imap_cons. simpl. by rewrite length_app, IH.
Qed.

(** ** The claims on the batch *)


(** C9. Whatever the order in which the requests and the sleeps complete,
    when [scrape_multiple_urls] returns, the list under each key of
    [self.results] is what it was followed, in some order, by the items of
    the pages that were fetched: every item is there once for each time it
    was extracted, and the length of the list has grown by the sum of the
    numbers of items of the pages. *)
Theorem concurrent_appends_lose_nothing sched urls s s' key :
  has_keys (dom (results s)) →
  scrape_multiple_urls sched urls s = (Some (Ok tt), s') →
  results s' !!! key ≡ₚ results s !!! key ++ concat (imap (page_items key) urls) ∧
  length (results s' !!! key) =
    (length (results s !!! key)
     + sum_list (imap (λ i url, length (page_items key i url)) urls))%nat.
Proof.
  intros Hk Hrun.
  destruct (scrape_multiple_urls_spec sched urls s Hk) as (o & s2 & Hrun2 & _ & _ & Hret).
  rewrite Hrun in Hrun2. simplify_eq.
  specialize (Hret eq_refl _ _ _ (tracks_results key)). cbn beta in Hret.
  assert (results s2 !!! key ≡ₚ results s !!! key ++ concat (imap (page_items key) urls)) as Hp.
  { rewrite Hret. rewrite (imap_ext _ (page_items key) urls); [done|].
    intros i url _.
    destruct (extract_data_contribution (dom (results s)) i url Hk)
      as (acts & Hs & _ & Happ & _).
    rewrite Hs. simpl. apply Happ. }
  split; [done|]. by rewrite Hp, length_app, length_concat_imap.
Qed.

(** ** The claim on the extraction *)




(** ** The requests of a batch *)

Lemma requests_perm acts acts' : acts ≡ₚ acts' → requests acts = requests acts'.
Proof.
  unfold requests. induction 1 as [|a l l' _ IH|a b l|l1 l2 l3 _ IH1 _ IH2]; simpl.
  - done.
  - destruct a; simpl; by rewrite ?IH.
  - by destruct a, b.
  - by rewrite IH1.
Qed.

Lemma requests_tagged (tid : nat) acts : requests (map snd (map (pair tid) acts)) = requests acts.
Proof. rewrite map_map. simpl. by rewrite map_id. Qed.

Lemma attempt_request_urls url retry a u a' :
  Requested u a' ∈ (attempt_actions url retry a).1 → u = url.
Proof.
  unfold attempt_actions.
  destruct a as [e|st [body|e]]; simpl; repeat (case_bool_decide; simpl);
    rewrite ?elem_of_cons, ?elem_of_nil; intros Hin;
    repeat (destruct Hin as [Hin|Hin]; [by simplify_eq|]); by simplify_eq.
Qed.

(** The requests of [extract_data] are those of its [fetch_url]: three at
    most, and for its URL. *)
Lemma extract_data_requests keys tid url :
  has_keys keys →
  (requests (script keys tid (extract_data url) 0 0).1 ≤ 3)%nat ∧
  ∀ u a, Requested u a ∈ (script keys tid (extract_data url) 0 0).1 → u = url.
Proof.
  intros Hk.
  destruct (fetch_url_facts keys tid url 0 0) as (fa & o & Hf & Hq & Hr & _).
  assert (∀ u a, Requested u a ∈ fa → u = url) as Hfa.
  { revert Hf. rewrite script_fetch_url.
    pose proof (attempt_request_urls url 0 (net tid 0)) as H0.
    pose proof (attempt_request_urls url 1 (net tid 1)) as H1.
    pose proof (attempt_request_urls url 2 (net tid 2)) as H2.
    destruct (attempt_actions url 0 (net tid 0)) as [a0 [|o0]];
      [|intros [= <- _]; apply H0].
    destruct (attempt_actions url 1 (net tid 1)) as [a1 [|o1]].
    2:{ intros [= <- _] u a [Hin|Hin]%elem_of_app; [by eapply H0|by eapply H1]. }
    destruct (attempt_actions url 2 (net tid 2)) as [a2 f2].
    intros [= <- _] u a [Hin|[Hin|Hin]%elem_of_app]%elem_of_app;
      [by eapply H0|by eapply H1|by eapply H2]. }
  destruct (truthy o) eqn:Ho.
  - destruct (script_extract_data_truthy _ _ _ _ _ _ _ Hf Ho) as (sa & r & -> & Hsa).
    destruct (sink_action_facts _ _ Hsa) as (Hr0 & _). simpl.
    rewrite requests_app, Hr0. split; [lia|].
    intros u a [Hin|Hin]%elem_of_app; [by eapply Hfa|].
    rewrite Forall_forall in Hsa. by apply Hsa in Hin.
  - rewrite (script_extract_data_falsy _ _ _ _ _ _ _ Hf Ho). simpl.
    rewrite requests_app. unfold requests at 2. simpl. split; [lia|].
    intros u a [Hin|Hin]%elem_of_app; [by eapply Hfa|].
    by apply list_elem_of_singleton in Hin.
Qed.

Lemma tracks_events_of i :
  tracks (λ s, filter (λ ev, ev.1 = i) (events s))
         (λ tid acts, filter (λ ev, ev.1 = i) (map (pair tid) acts)).
Proof.
  split; [|split]; [| |done].
  - intros tid acts s. by rewrite events_apply, filter_app.
  - intros tid a b. by rewrite map_app, filter_app.
Qed.

Lemma filter_tagged (i tid : nat) (acts : list action) :
  filter (λ ev, ev.1 = i) (map (pair tid) acts) =
    if decide (tid = i) then map (pair tid) acts else [].
Proof.
  induction acts as [|a acts IH]; simpl.
  - by destruct (decide (tid = i)).
  - destruct (decide (tid = i)) as [Heq|Hne].
    + rewrite filter_cons_True by done. by rewrite IH.
    + rewrite filter_cons_False by done. done.
Qed.

Lemma concat_imap_nil {A B} (l : list A) :
  concat (imap (λ (_ : nat) (_ : A), @nil B) l) = [].
Proof. induction l as [|a l IH]; [done|]. by rewrite imap_cons. Qed.

Lemma concat_imap_single {A B} (G : nat → A → list B) l i :
  concat (imap (λ j a, if decide (j = i) then G j a else []) l) =
    match l !! i with Some a => G i a | None => [] end.
Proof.
  revert G i. induction l as [|a l IH]; intros G i; [done|].
  rewrite imap_cons. simpl. destruct i as [|i]; simpl.
  - rewrite (imap_ext _ (λ _ _, []) l) by done.
    by rewrite concat_imap_nil, app_nil_r.
  - rewrite <- (IH (λ j, G (S j)) i). f_equal. apply imap_ext.
    intros j b _. simpl. destruct (decide (j = i)), (decide (S j = S i)); done || lia.
Qed.

Lemma requests_concat_imap {A} (G : nat → A → list (nat * action)) l :
  (∀ j a, l !! j = Some a → (requests (map snd (G j a)) ≤ 3)%nat) →
  (requests (map snd (concat (imap G l))) ≤ 3 * length l)%nat.
Proof.
  revert G. induction l as [|a l IH]; intros G HG; [unfold requests; simpl; lia|].
  rewrite imap_cons. simpl. rewrite map_app, requests_app.
  specialize (IH (λ j, G (S j))). specialize (HG 0%nat a eq_refl) as H0.
  assert (requests (map snd (concat (imap (λ j, G (S j)) l))) ≤ 3 * length l)%nat.
  { apply IH. intros j b Hj. by apply (HG (S j)). }
  unfold compose in *. lia.
Qed.

(** The pool of [scrape_multiple_urls] at any time: what has been observed
    and what is still to come make up what the units of work do. *)
Lemma scrape_multiple_urls_pending sched urls s :
  has_keys (dom (results s)) →
  ∃ pool', ∀ X (obs : scraper → list X) f, tracks obs f →
    obs (scrape_multiple_urls sched urls s).2 ++ pending f (dom (results s)) pool'
    ≡ₚ obs s ++ concat (imap (λ i url,
                  f i (script (dom (results s)) i (extract_data url) 0 0).1) urls).
Proof.
  intros Hk. unfold scrape_multiple_urls, gather.
  rewrite start_extract_data. simpl.
  set (pool0 := imap (λ i url, Task i (extract_data url) 0) urls).
  pose proof (spawn_ok (dom (results s)) urls s Hk eq_refl) as Hok. fold pool0 in Hok.
  pose proof (λ X obs f Ht, run_pool_pending (X:=X) obs f _ sched _ _ Ht Hok) as Hpend.
  destruct (run_pool sched pool0 s) as [pool' s']. simpl in *.
  exists pool'. intros X obs f Ht. rewrite (Hpend X obs f Ht).
  unfold pool0. by rewrite spawn_pending.
Qed.

(** X16. However the tasks are scheduled and however long the batch has run, it
    has made three requests at most for each URL, so three times the number
    of URLs at most in all, and the requests of task [i] are requests for
    the URL [i]. *)
Theorem batch_requests_are_bounded sched urls s :
  has_keys (dom (results s)) →
  let new := drop (length (events s)) (events (scrape_multiple_urls sched urls s).2) in
  (requests (map snd new) ≤ 3 * length urls)%nat ∧
  ∀ i, (requests (map snd (filter (λ ev, ev.1 = i) new)) ≤ 3)%nat ∧
       ∀ u a, (i, Requested u a) ∈ new → urls !! i = Some u.
Proof.
  intros Hk new.
  destruct (scrape_multiple_urls_pending sched urls s Hk) as (pool' & Hpend).
  destruct (scrape_multiple_urls_extends sched urls s) as (_ & _ & _ & _ & [evs Hev]).
  assert (new = evs) as Hnew.
  { unfold new. by rewrite Hev, drop_app_length. }
  clearbody new. subst new. split.
  - pose proof (Hpend _ _ _ tracks_events) as Hp. cbn beta in Hp.
    rewrite Hev, <- app_assoc in Hp. apply Permutation_app_inv_l in Hp.
    apply (Permutation_map snd), requests_perm in Hp.
    rewrite map_app, requests_app in Hp.
    pose proof (requests_concat_imap
      (λ i url, map (pair i) (script (dom (results s)) i (extract_data url) 0 0).1) urls) as Hb.
    cbn beta in Hb. etrans; [|apply Hb].
    + lia.
    + intros j url _. rewrite requests_tagged.
      by destruct (extract_data_requests (dom (results s)) j url Hk).
  - intros i. pose proof (Hpend _ _ _ (tracks_events_of i)) as Hp. cbn beta in Hp.
    rewrite Hev, filter_app, <- app_assoc in Hp. apply Permutation_app_inv_l in Hp.
    rewrite (imap_ext _ (λ j url, if decide (j = i)
               then map (pair j) (script (dom (results s)) j (extract_data url) 0 0).1
               else [])) in Hp
      by (intros; apply filter_tagged).
    rewrite (concat_imap_single
               (λ j url, map (pair j) (script (dom (results s)) j (extract_data url) 0 0).1))
      in Hp.
    split.
    + pose proof Hp as Hp'.
      apply (Permutation_map snd), requests_perm in Hp'.
      rewrite map_app, requests_app in Hp'.
      destruct (urls !! i) as [url|].
      * rewrite requests_tagged in Hp'.
        destruct (extract_data_requests (dom (results s)) i url Hk) as [Hr _]. lia.
      * change (requests (map snd [])) with 0%nat in Hp'. lia.
    + intros u a Hin.
      assert ((i, Requested u a) ∈ filter (λ ev, ev.1 = i) evs ++
                pending (λ tid acts, filter (λ ev, ev.1 = i) (map (pair tid) acts))
                  (dom (results s)) pool') as Hin'.
      { apply elem_of_app. left. by apply list_elem_of_filter. }
      rewrite Hp in Hin'. destruct (urls !! i) as [url|]; [|by apply elem_of_nil in Hin'].
      apply list_elem_of_fmap in Hin' as (a' & [= <-] & Hin').
      destruct (extract_data_requests (dom (results s)) i url Hk) as [_ Hu].
      by rewrite (Hu _ _ Hin').
Qed.

(** ** The pages are stored one after the other *)

Lemma sink_part_app a b :
  sink_part (a ++ b) =
    if forallb quiet_action a then sink_part b else sink_part a ++ b.
Proof.
  induction a as [|x a IH]; simpl; [done|].
  destruct (quiet_action x); simpl; [apply IH|done].
Qed.

Lemma sink_part_quiet acts : forallb quiet_action acts = true → sink_part acts = [].
Proof.
  induction acts as [|a acts IH]; simpl; [done|].
  intros [Ha Hq]%andb_true_iff. rewrite Ha. by apply IH.
Qed.

Lemma awaits_sink_part acts : awaits acts = 0%nat → awaits (sink_part acts) = 0%nat.
Proof.
  induction acts as [|a acts IH]; simpl; [done|].
  intros Ha. destruct (quiet_action a) eqn:Hq; [|done].
  apply IH. unfold awaits in *. simpl in Ha. destruct a; simpl in *; done || lia.
Qed.

Lemma settled_no_await keys t :
  settled (task_code t) = true → awaits (future keys t).1 = 0%nat → finished t = true.
Proof.
  unfold finished, future, awaits. destruct (task_code t); simpl; try done.
  - by destruct (script _ _ _ _ _).
  - by destruct (script _ _ _ _ _).
Qed.

Lemma finished_future keys t : finished t = true → (future keys t).1 = [].
Proof. unfold finished, future. by destruct (task_code t). Qed.

Lemma awaits_record_actions url category key l :
  awaits (record_actions url category key l) = 0%nat.
Proof. unfold awaits. induction l as [|item l IH]; simpl; done. Qed.

(** A unit of work fetches first and stores after, with no await while it
    stores. *)
Lemma extract_data_atomic keys tid url :
  has_keys keys → atomic (script keys tid (extract_data url) 0 0).1.
Proof.
  intros Hk. rewrite script_extract_data_ok by done.
  destruct (fetch_url_facts keys tid url 0 0) as (fa & o & -> & Hq & _).
  cbn [fst snd]. unfold atomic. rewrite sink_part_app, Hq.
  apply awaits_sink_part. destruct (truthy o); [|done].
  unfold page_actions. by rewrite !awaits_app, !awaits_record_actions.
Qed.

(** One turn of a task: either it adds nothing to the sink, or it adds all
    that the task has to add and the task ends. *)
Lemma resume_atomic t s :
  settled (task_code t) = true →
  atomic (future (dom (results s)) t).1 →
  atomic (future (dom (results s)) (resume t s).1).1 ∧
  (finished (resume t s).1 = false → finished t = false) ∧
  (finished t = true → finished (resume t s).1 = true) ∧
  ∀ X (obs : scraper → list X) f, tracks obs f → of_the_sink f →
    obs (resume t s).2 =
      obs s ++ (if negb (finished t) && finished (resume t s).1
                then f (task_id t) (future (dom (results s)) t).1 else []) ∧
    (finished (resume t s).1 = false →
     f (task_id (resume t s).1) (future (dom (results s)) (resume t s).1).1 =
       f (task_id t) (future (dom (results s)) t).1).
Proof.
  intros Hset Hat.
  destruct (resume_spec t s Hset) as (acts & Hs & Hd & Hid & Hset' & Ha & Hfut).
  set (keys := dom (results s)) in *.
  assert (finished t = true → acts = [] ∧ finished (resume t s).1 = true) as Hfin.
  { intros Hf. pose proof (finished_future keys t Hf) as Hnil.
    rewrite Hfut in Hnil. simpl in Hnil. apply app_eq_nil in Hnil as [-> Hnil].
    split; [done|]. apply (settled_no_await keys); [done|]. by rewrite Hnil. }
  unfold atomic in Hat. rewrite Hfut in Hat. cbn [fst] in Hat.
  rewrite sink_part_app in Hat.
  destruct (forallb quiet_action acts) eqn:Hq.
  - split; [done|]. split.
    { intros Hf'. destruct (finished t) eqn:Hf; [|done].
      destruct (Hfin eq_refl) as [_ Hf2]. congruence. }
    split; [intros Hf; by apply Hfin|].
    intros X obs f (Hobs & Happ & Hnil) Hsink.
    assert (f (task_id t) (future keys t).1 =
            f (task_id t) (future keys (resume t s).1).1) as Heq.
    { rewrite Hfut. cbn [fst]. by rewrite Happ, (Hsink _ _ Hq). }
    rewrite Hs, Hobs, (Hsink _ _ Hq). split.
    + destruct (negb (finished t) && finished (resume t s).1) eqn:Hb; [|done].
      apply andb_true_iff in Hb as [_ Hb].
      by rewrite Heq, (finished_future keys _ Hb), Hnil.
    + intros _. by rewrite Hid, Heq.
  - rewrite awaits_app in Hat.
    assert (finished (resume t s).1 = true) as Hf'.
    { apply (settled_no_await keys); [done|lia]. }
    assert (finished t = false) as Hf.
    { destruct (finished t) eqn:Hf; [|done].
      destruct (Hfin eq_refl) as [-> _]. done. }
    split.
    { unfold atomic. by rewrite (finished_future keys _ Hf'). }
    split; [done|]. split; [done|].
    intros X obs f (Hobs & Happ & Hnil) Hsink.
    rewrite Hs, Hobs, Hf, Hf'. simpl. split; [|done].
    rewrite Hfut. cbn [fst]. by rewrite (finished_future keys _ Hf'), app_nil_r.
Qed.

Lemma resume_finished t s : finished t = true → resume t s = (t, s).
Proof. unfold finished, resume. by destruct (task_code t). Qed.

(** A pool whose tasks store without awaiting. *)
Lemma step_atomic keys i pool s :
  pool_ok keys pool s →
  Forall (λ t, atomic (future keys t).1) pool →
  Forall (λ t, atomic (future keys t).1) (step i pool s).1.
Proof.
  intros [Hd Hall] Hat. unfold step. destruct (pool !! i) as [t|] eqn:Hi; [|done].
  destruct (Forall_lookup_1 _ _ _ _ Hall Hi) as [Hset _].
  pose proof (Forall_lookup_1 _ _ _ _ Hat Hi) as Hati. cbn beta in Hati.
  rewrite <- Hd in Hati.
  destruct (resume_atomic t s Hset Hati) as (Hat' & _).
  destruct (resume t s) as [t' s']. simpl in *. rewrite Hd in Hat'.
  by apply Forall_insert.
Qed.

Lemma step_lookup i pool s t :
  pool !! i = Some t → (step i pool s).1 !! i = Some (resume t s).1.
Proof.
  intros Hi. unfold step. rewrite Hi. destruct (resume t s) as [t' s']. simpl.
  apply list_lookup_insert_eq. by apply lookup_lt_Some in Hi.
Qed.

Lemma step_state i pool s t :
  pool !! i = Some t → (step i pool s).2 = (resume t s).2.
Proof. intros Hi. unfold step. rewrite Hi. by destruct (resume t s). Qed.

Lemma step_none i pool s : pool !! i = None → step i pool s = (pool, s).
Proof. intros Hi. unfold step. by rewrite Hi. Qed.

(** What a task has to add to an observation of the sink. *)
Lemma run_pool_finish_order keys sched pool s :
  pool_ok keys pool s →
  Forall (λ t, atomic (future keys t).1) pool →
  NoDup (finish_order sched pool s) ∧
  (∀ i, i ∈ finish_order sched pool s ↔
        ∃ t t', pool !! i = Some t ∧ (run_pool sched pool s).1 !! i = Some t' ∧
                finished t = false ∧ finished t' = true) ∧
  (∀ i t, pool !! i = Some t → finished t = true →
          (run_pool sched pool s).1 !! i = Some t) ∧
  ∀ X (obs : scraper → list X) f, tracks obs f → of_the_sink f →
    obs (run_pool sched pool s).2 =
      obs s ++ concat (map (λ i, from_option (λ t, f (task_id t) (future keys t).1)
                                             [] (pool !! i))
                           (finish_order sched pool s)).
Proof.
  revert pool s. induction sched as [|i sched IH]; intros pool s Hok Hat.
  { simpl. split; [constructor|]. split; [|split].
    - intros i. split; [by intros ?%elem_of_nil|].
      intros (t & t' & Ht & Ht' & Hf & Hf'). congruence.
    - done.
    - intros. by rewrite app_nil_r. }
  pose proof (step_ok keys i pool s Hok) as Hok1.
  pose proof (step_atomic keys i pool s Hok Hat) as Hat1.
  pose proof (step_other i) as Hoth. specialize Hoth with (pool := pool) (s := s).
  pose proof (step_lookup i pool s) as Hlook.
  pose proof (step_state i pool s) as Hstate.
  pose proof (step_none i pool s) as Hnone.
  cbn [finish_order run_pool].
  destruct (step i pool s) as [pool1 s1]. cbn [fst snd] in *.
  destruct (IH pool1 s1 Hok1 Hat1) as (Hnd & Hin & Hkeep & Hobs). clear IH.
  destruct (pool !! i) as [t|] eqn:Hi.
  2:{ specialize (Hnone eq_refl). simplify_eq.
      unfold ends_at. rewrite Hi. simpl. done. }
  clear Hnone. specialize (Hlook t eq_refl). specialize (Hstate t eq_refl).
  destruct Hok as [Hd Hall].
  destruct (Forall_lookup_1 _ _ _ _ Hall Hi) as [Hset _].
  pose proof (Forall_lookup_1 _ _ _ _ Hat Hi) as Hati. cbn beta in Hati.
  rewrite <- Hd in Hati.
  destruct (resume_atomic t s Hset Hati) as (_ & Hback & Hstay & Hres).
  rewrite Hd in Hres. set (t1 := (resume t s).1) in *.
  unfold ends_at. rewrite Hi, Hlook.
  split; [|split; [|split]].
  - destruct (negb (finished t) && finished t1) eqn:Hb; [|done].
    apply andb_true_iff in Hb as [_ Hb]. simpl. constructor; [|done].
    rewrite Hin. intros (t2 & t' & Ht2 & _ & Hf & _). congruence.
  - intros j. rewrite elem_of_app, Hin. split.
    + intros [Hj|(t2 & t' & Ht2 & Ht' & Hf & Hf')].
      * destruct (negb (finished t) && finished t1) eqn:Hb;
          [|by apply elem_of_nil in Hj].
        apply list_elem_of_singleton in Hj as ->.
        apply andb_true_iff in Hb as [Hb1 Hb2]. apply negb_true_iff in Hb1.
        exists t, t1. repeat split; try done. by apply Hkeep.
      * destruct (decide (j = i)) as [->|Hne].
        -- exists t, t'. simplify_eq. repeat split; try done. by apply Hback.
        -- exists t2, t'. rewrite <- Hoth by done. done.
    + intros (t2 & t' & Ht2 & Ht' & Hf & Hf').
      destruct (decide (j = i)) as [->|Hne].
      * simplify_eq. rewrite Hf. simpl.
        destruct (finished t1) eqn:Hb; [left; by apply list_elem_of_singleton|].
        right. by exists t1, t'.
      * right. exists t2, t'. by rewrite Hoth.
  - intros j t2 Hj Hf. apply Hkeep; [|done].
    destruct (decide (j = i)) as [->|Hne]; [|by rewrite Hoth].
    rewrite Hi in Hj. injection Hj as ->. rewrite Hlook. unfold t1.
    by rewrite resume_finished.
  - intros X obs f Htr Hsink.
    destruct (Hres X obs f Htr Hsink) as [Hnow Hlater].
    rewrite <- Hstate in Hnow.
    rewrite (Hobs X obs f Htr Hsink), Hnow, <- app_assoc. f_equal.
    rewrite map_app, concat_app. f_equal.
    + destruct (negb (finished t) && finished t1); simpl; [|done].
      by rewrite Hi, app_nil_r.
    + f_equal. apply map_ext_in. intros j Hj%list_elem_of_In.
      apply Hin in Hj as (t2 & t' & Ht2 & _ & Hf & _).
      destruct (decide (j = i)) as [->|Hne]; [|by rewrite Hoth].
      rewrite Hlook in Ht2. injection Ht2 as <-.
      rewrite Hi, Hlook. simpl. by apply Hlater.
Qed.

Lemma sink_table : of_the_sink (λ _ : nat, stored).
Proof. intros tid acts. apply quiet_stored. Qed.

Lemma sink_results key : of_the_sink (λ _ : nat, appended key).
Proof. intros tid acts. apply quiet_appended. Qed.

Lemma outcome_returned first pool :
  outcome first pool = Some (Ok tt) → forallb finished pool = true.
Proof. unfold outcome. destruct first; [done|]. by destruct (forallb finished pool). Qed.

(** X17. Whatever the order in which the requests and the sleeps complete, when
    [scrape_multiple_urls] returns, the table is what it was followed by the
    rows of the pages, one whole page after the other, and each list of
    [self.results] is what it was followed by the items of the pages, the
    pages coming in the same order in the table and in each list: the rows
    and the items of two pages are never mixed. *)
Theorem pages_are_stored_one_after_the_other sched urls s s' :
  has_keys (dom (results s)) →
  scrape_multiple_urls sched urls s = (Some (Ok tt), s') →
  ∃ order,
    order ≡ₚ seq 0 (length urls) ∧
    table s' = table s ++ concat (map (λ i, page_rows i (urls !!! i)) order) ∧
    ∀ key, results s' !!! key =
             results s !!! key ++ concat (map (λ i, page_items key i (urls !!! i)) order).
Proof.
  intros Hk. unfold scrape_multiple_urls, gather.
  rewrite start_extract_data. simpl.
  set (pool0 := imap (λ i url, Task i (extract_data url) 0) urls).
  pose proof (spawn_ok (dom (results s)) urls s Hk eq_refl) as Hok. fold pool0 in Hok.
  assert (∀ i t, pool0 !! i = Some t →
            ∃ url, urls !! i = Some url ∧ t = Task i (extract_data url) 0) as Hpool.
  { intros i t. unfold pool0. rewrite list_lookup_imap.
    destruct (urls !! i) as [url|]; [|done]. intros [= <-]. by exists url. }
  assert (Forall (λ t, atomic (future (dom (results s)) t).1) pool0) as Hat.
  { apply Forall_lookup. intros i t Hi. destruct (Hpool i t Hi) as (url & _ & ->).
    by apply extract_data_atomic. }
  destruct (run_pool_finish_order _ sched pool0 s Hok Hat) as (Hnd & Hin & _ & Hobs).
  pose proof (run_pool_length sched pool0 s) as Hlen.
  destruct (run_pool sched pool0 s) as [pool' s2]. simpl in *.
  intros [= Hout ->]. apply outcome_returned in Hout.
  exists (finish_order sched pool0 s). split; [|split].
  - apply NoDup_Permutation; [done|apply NoDup_seq|].
    intros i. rewrite Hin, elem_of_seq. unfold pool0 in Hlen. rewrite length_imap in Hlen.
    split.
    + intros (t & t' & Ht & _). apply lookup_lt_Some in Ht.
      unfold pool0 in Ht. rewrite length_imap in Ht. lia.
    + intros [_ Hi]. simpl in Hi.
      destruct (lookup_lt_is_Some_2 urls i Hi) as [url Hurl].
      destruct (lookup_lt_is_Some_2 pool' i ltac:(lia)) as [t' Ht'].
      exists (Task i (extract_data url) 0), t'. split.
      { unfold pool0. by rewrite list_lookup_imap, Hurl. }
      split; [done|]. split; [done|].
      rewrite forallb_forall in Hout. apply Hout.
      apply list_elem_of_In. by apply list_elem_of_lookup_2 in Ht'.
  - rewrite (Hobs _ table (λ _, stored) tracks_table sink_table). do 2 f_equal.
    apply map_ext_in. intros i Hi%list_elem_of_In.
    apply Hin in Hi as (t & _ & Ht & _).
    destruct (Hpool i t Ht) as (url & Hurl & ->). rewrite Ht. simpl.
    rewrite (list_lookup_total_correct _ _ _ Hurl).
    destruct (extract_data_contribution (dom (results s)) i url Hk) as (acts & Hs & _ & _ & Hsto).
    unfold future. cbn [task_id task_code task_reqs]. by rewrite Hs.
  - intros key.
    rewrite (Hobs _ (λ s, results s !!! key) (λ _, appended key)
               (tracks_results key) (sink_results key)).
    do 2 f_equal.
    apply map_ext_in. intros i Hi%list_elem_of_In.
    apply Hin in Hi as (t & _ & Ht & _).
    destruct (Hpool i t Ht) as (url & Hurl & ->). rewrite Ht. simpl.
    rewrite (list_lookup_total_correct _ _ _ Hurl).
    destruct (extract_data_contribution (dom (results s)) i url Hk) as (acts & Hs & _ & Happ & _).
    unfold future. cbn [task_id task_code task_reqs]. rewrite Hs. apply Happ.
Qed.

(** ** What [extract_data] adds for a page *)




(** ** A run of [main] from its input to its end *)



End Pipeline.

(** ** The retry loop on a URL that fails every time *)

(** C1. A request that raises is followed by the next request at once: on a
    URL whose three requests raise [e], [fetch_url] makes the three requests
    and logs the three errors and never sleeps, and returns [None]. *)
Theorem fetch_url_exception_no_backoff
    (db : nat -> option exn) (tid : nat) (url : string)
    (n : nat) (s : scraper) (e : exn) :
  let net := fun _ _ : nat => GetRaises e in
  run net db tid (fetch_url url) n s =
    (Ok None, (n + 3)%nat,
     Scraper (results s) (table s) (db_calls s)
       (events s ++
        [(tid, Requested url (GetRaises e)); (tid, Logged ERROR (request_error url e));
         (tid, Requested url (GetRaises e)); (tid, Logged ERROR (request_error url e));
         (tid, Requested url (GetRaises e)); (tid, Logged ERROR (request_error url e))]))
  ∧ slept (script net db (dom (results s)) tid (fetch_url url) n (db_calls s)).1 = [].
Proof.
  intros net. rewrite run_script, script_fetch_url. simpl. split; [|done].
  unfold apply_actions; simpl. unfold apply_action; simpl.
  by rewrite <- !app_assoc.
Qed.

(** C2. On a URL whose three requests are answered with the status 500,
    [fetch_url] makes the three requests and returns [None]; it sleeps 1 and
    2 seconds before the second and the third request, and 4 seconds more
    after the third, when no request is left to make. *)
Theorem fetch_url_sleeps_after_last_attempt
    (db : nat -> option exn) (tid : nat) (url : string)
    (n : nat) (s : scraper) (body : result string) :
  let a := Response 500 body in
  run (fun _ _ => a) db tid (fetch_url url) n s =
    (Ok None, (n + 3)%nat,
     Scraper (results s) (table s) (db_calls s)
       (events s ++
        [(tid, Requested url a); (tid, Logged WARNING (retry_warning url 500 0));
         (tid, Slept 1);
         (tid, Requested url a); (tid, Logged WARNING (retry_warning url 500 1));
         (tid, Slept 2);
         (tid, Requested url a); (tid, Logged WARNING (retry_warning url 500 2));
         (tid, Slept 4)])).
Proof.
  intros a. rewrite run_script, script_fetch_url. simpl.
  unfold apply_actions; simpl. unfold apply_action; simpl.
  by rewrite <- !app_assoc.
Qed.

(** ** The extraction of the page of the specification *)

(** C6. From the page of the specification fetched at http://s/ the
    extraction gives the heading A, the paragraph B, the image
    http://s/x.png and the link http://s/y. *)
Theorem extraction_of_the_sample_page :
  let soup := BeautifulSoup sample_page in
  headings_of soup = ["A"] ∧
  paragraphs_of soup = ["B"] ∧
  images_of "http://s/" soup = ["http://s/x.png"] ∧
  links_of "http://s/" soup = ["http://s/y"].
Proof. vm_compute. by repeat split. Qed.

(** The models of the parser and of [urljoin] on other inputs: the
    reference resolution examples of RFC 3986, section 5.4, and a page with
    upper case names, an attribute in single quotes and one without quotes,
    a [br], an end tag that closes nothing and two tags left open. *)
Example urljoin_reference_resolution :
  map (py_urljoin "http://a/b/c/d;p?q")
      ["g"; "./g"; "g/"; "/g"; "//g"; "?y"; "g?y"; "#s"; "../g"; "../../g";
       "g:h"; "https://x/y"] =
  ["http://a/b/c/g"; "http://a/b/c/g"; "http://a/b/c/g/"; "http://a/g";
   "http://g"; "http://a/b/c/d;p?y"; "http://a/b/c/g?y"; "http://a/b/c/d;p?q#s";
   "http://a/b/g"; "http://a/g"; "g:h"; "https://x/y"].
Proof. reflexivity. Qed.

Example extraction_of_a_loose_page :
  let soup :=
    BeautifulSoup ("<H2 class=x> Hi <b>there</b> </H2><p>one<br>two</p></div>"
                   +:+ "<img SRC='a.png'><a href=up>u") in
  headings_of soup = ["Hi there"] ∧
  paragraphs_of soup = ["onetwo"] ∧
  images_of "http://s/dir/page" soup = ["http://s/dir/a.png"] ∧
  links_of "http://s/dir/page" soup = ["http://s/dir/up"].
Proof. vm_compute. by repeat split. Qed.

(** ** The claims at concrete inputs *)

(** C5, as stated, fails: on no URL [scrape_multiple_urls] reports no error;
    it returns and nothing has happened. *)
Lemma empty_batch_returns_silently :
  scrape_multiple_urls (net_page sample_page) db_ok [] [] fresh = (Some (Ok tt), fresh) ∧
  ¬ ∃ e, (scrape_multiple_urls (net_page sample_page) db_ok [] [] fresh).1 = Some (Err e).
Proof. split; [reflexivity|]. intros [e He]. vm_compute in He. discriminate He. Qed.

Example fresh_scraper : new_scraper (Some "postgresql://db") [] = Ok fresh.
Proof. reflexivity. Qed.

(** The error of a failed [insert_data] goes up through [gather] to [main],
    which prints it; the row stored before it stays, and its item with it. *)
Example storage_error_reaches_main :
  let '(console, s) :=
    main (net_page sample_page) db_second_fails [0%nat] (Some "postgresql://db") []
         ["http://s/"; ""] in
  last console = Some "Database error: connection lost" ∧
  (table <$> s) = Some [Row "http://s/" "Heading" "A"] ∧
  (λ s, results s !!! "Headings") <$> s = Some ["A"] ∧
  (λ s, results s !!! "Text") <$> s = Some [].
Proof. vm_compute. by repeat split. Qed.

(** C3 at the page of the specification, the second [insert_data] failing:
    the heading is stored and appended, the paragraph is neither. *)
Lemma extract_data_aggregate_follows_storage_witness :
  has_keys (dom (results fresh)) ∧
  ∃ r n' s' rows,
    run (net_page sample_page) db_second_fails 0 (extract_data "http://s/") 0 fresh
      = (r, n', s') ∧
    table s' = table fresh ++ rows ∧
    (∀ key, results s' !!! key = results fresh !!! key ++ contents_for key rows) ∧
    (∀ row e,
       (0%nat, StoreFailed row e) ∈ drop (length (events fresh)) (events s') →
       r = Err e ∧ last (events s') = Some (0%nat, StoreFailed row e)).
Proof.
  assert (has_keys (dom (results fresh))) as Hk.
  { keys_by_computation. }
  split; [exact Hk|].
  apply (extract_data_aggregate_follows_storage (net_page sample_page) db_second_fails
           0 "http://s/" 0 fresh Hk).
Defined.

(** C10 at a URL answered with the status 200 and an empty body. *)
Lemma empty_body_is_a_failed_fetch_witness :
  (run (net_page "") db_ok 0 (fetch_url "http://s/") 0 fresh).1.1 = Ok (Some "") ∧
  ∃ n' s',
    run (net_page "") db_ok 0 (extract_data "http://s/") 0 fresh = (Ok tt, n', s') ∧
    table s' = table fresh ∧ results s' = results fresh ∧
    last (events s') = Some (0%nat, Logged ERROR (fetch_failed_message "http://s/")) ∧
    successes (map snd (drop (length (events fresh)) (events s'))) = 1%nat.
Proof.
  assert ((run (net_page "") db_ok 0 (fetch_url "http://s/") 0 fresh).1.1 = Ok (Some ""))
    as Hf by reflexivity.
  split; [exact Hf|].
  apply (empty_body_is_a_failed_fetch (net_page "") db_ok 0 "http://s/" 0 fresh Hf).
Defined.



Lemma concurrent_appends_lose_nothing_witness :
  let net := net_first_only sample_page in
  let urls := ["http://s/"; "http://down/"] in
  let s' := (scrape_multiple_urls net db_ok round_robin urls fresh).2 in
  (∀ c, db_ok c = None) ∧
  has_keys (dom (results fresh)) ∧
  scrape_multiple_urls net db_ok round_robin urls fresh = (Some (Ok tt), s') ∧
  results s' !!! "Headings"
    ≡ₚ results fresh !!! "Headings" ++ concat (imap (page_items net db_ok "Headings") urls) ∧
  length (results s' !!! "Headings") =
    (length (results fresh !!! "Headings")
     + sum_list (imap (λ i url, length (page_items net db_ok "Headings" i url)) urls))%nat.
Proof.
  intros net urls s'.
  assert (∀ c, db_ok c = None) as Hdb by reflexivity.
  assert (has_keys (dom (results fresh))) as Hk.
  { keys_by_computation. }
  assert (scrape_multiple_urls net db_ok round_robin urls fresh = (Some (Ok tt), s')) as Hrun.
  { vm_compute. reflexivity. }
  split; [exact Hdb|]. split; [exact Hk|]. split; [exact Hrun|].
  apply (concurrent_appends_lose_nothing net db_ok Hdb round_robin urls fresh s'
           "Headings" Hk Hrun).
Defined.

(** ** The further properties at concrete inputs *)

(** The page of the specification, the second [insert_data] failing: the
    row of the heading stays. *)
Lemma extract_data_keeps_rows_before_failure_witness :
  let e := Exn StorageError "connection lost" in
  has_keys (dom (results fresh)) ∧
  ∃ n' s',
    run (net_page sample_page) db_second_fails 0 (extract_data "http://s/") 0 fresh
      = (Err e, n', s') ∧
    table s' = table fresh ++
      take 1 (rows_of "http://s/" (BeautifulSoup sample_page)) ∧
    (∀ key, results s' !!! key = results fresh !!! key ++
       contents_for key (take 1 (rows_of "http://s/" (BeautifulSoup sample_page)))) ∧
    db_calls s' = S (db_calls fresh + 1).
Proof.
  intros e.
  assert (has_keys (dom (results fresh))) as Hk.
  { keys_by_computation. }
  split; [exact Hk|].
  apply (extract_data_keeps_rows_before_failure (net_page sample_page) db_second_fails
           0 "http://s/" 0 fresh sample_page 1 e Hk).
  - reflexivity.
  - reflexivity.
  - vm_compute. lia.
  - intros i Hi. assert (i = 0%nat) as -> by lia. reflexivity.
  - reflexivity.
Defined.

(** A scraper whose [self.results] has been emptied, on the page of the
    specification. *)
Lemma extract_data_missing_key_witness :
  let s := Scraper ∅ [] 0 [] in
  ("Headings" ∉ dom (results s)) ∧
  ∃ e n' s',
    run (net_page sample_page) db_ok 0 (extract_data "http://s/") 0 s = (Err e, n', s') ∧
    exn_kind_of e = KeyError ∧
    table s' = table s ++ [Row "http://s/" "Heading" "A"] ∧
    results s' = results s.
Proof.
  intros s.
  assert ("Headings" ∉ dom (results s)) as Hk.
  { simpl. rewrite dom_empty_L. apply not_elem_of_empty. }
  split; [exact Hk|].
  apply (extract_data_missing_key (net_page sample_page) db_ok
           0 "http://s/" 0 s sample_page "A" [] Hk); reflexivity.
Defined.


(** Two empty lines, two URLs, the empty line that ends the input, and a
    line that is not read. *)
Lemma read_urls_returns_the_lines_typed_witness :
  read_urls (replicate 2 "" ++ ["http://a/"; "http://b/"] ++ "" :: ["http://c/"]) [] [] =
    (Ok ["http://a/"; "http://b/"],
     [] ++ concat (replicate 2 [prompt; "Please enter at least one URL."])
        ++ replicate 3 prompt).
Proof.
  apply (read_urls_returns_the_lines_typed 2 ["http://a/"; "http://b/"] ["http://c/"] []).
  - discriminate.
  - repeat constructor.
Defined.

(** One URL and the end of the input. *)
Lemma unterminated_input_scrapes_nothing_witness :
  new_scraper (Some "postgresql://db") [] = Ok fresh ∧
  ∃ console,
    main (net_page sample_page) db_ok [0%nat] (Some "postgresql://db") []
         (replicate 0 "" ++ ["http://s/"]) =
      (console ++ ["An error occurred: EOF when reading a line"], Some fresh) ∧
    events fresh = [].
Proof.
  assert (new_scraper (Some "postgresql://db") [] = Ok fresh) as Hs by reflexivity.
  split; [exact Hs|].
  apply (unterminated_input_scrapes_nothing (net_page sample_page) db_ok [0%nat]
           (Some "postgresql://db") [] 0 ["http://s/"] fresh Hs).
  repeat constructor.
Defined.

(** Two URLs, the first one answered with the page of the specification,
    the second one never answered. *)
Lemma batch_requests_are_bounded_witness :
  let net := net_first_only sample_page in
  let urls := ["http://s/"; "http://down/"] in
  let new := drop (length (events fresh))
                  (events (scrape_multiple_urls net db_ok round_robin urls fresh).2) in
  (∀ c, db_ok c = None) ∧
  has_keys (dom (results fresh)) ∧
  (requests (map snd new) ≤ 3 * length urls)%nat ∧
  ∀ i, (requests (map snd (filter (λ ev, ev.1 = i) new)) ≤ 3)%nat ∧
       ∀ u a, (i, Requested u a) ∈ new → urls !! i = Some u.
Proof.
  intros net urls new.
  assert (∀ c, db_ok c = None) as Hdb by reflexivity.
  assert (has_keys (dom (results fresh))) as Hk.
  { keys_by_computation. }
  split; [exact Hdb|]. split; [exact Hk|].
  apply (batch_requests_are_bounded net db_ok Hdb round_robin urls fresh Hk).
Defined.

Lemma pages_are_stored_one_after_the_other_witness :
  let net := net_page sample_page in
  let urls := ["http://s/"; "http://t/"] in
  let s' := (scrape_multiple_urls net db_ok round_robin urls fresh).2 in
  (∀ c, db_ok c = None) ∧
  has_keys (dom (results fresh)) ∧
  scrape_multiple_urls net db_ok round_robin urls fresh = (Some (Ok tt), s') ∧
  ∃ order,
    order ≡ₚ seq 0 (length urls) ∧
    table s' = table fresh ++ concat (map (λ i, page_rows net db_ok i (urls !!! i)) order) ∧
    ∀ key, results s' !!! key =
             results fresh !!! key
             ++ concat (map (λ i, page_items net db_ok key i (urls !!! i)) order).
Proof.
  intros net urls s'.
  assert (∀ c, db_ok c = None) as Hdb by reflexivity.
  assert (has_keys (dom (results fresh))) as Hk.
  { keys_by_computation. }
  assert (scrape_multiple_urls net db_ok round_robin urls fresh = (Some (Ok tt), s')) as Hrun.
  { vm_compute. reflexivity. }
  split; [exact Hdb|]. split; [exact Hk|]. split; [exact Hrun|].
  apply (pages_are_stored_one_after_the_other net db_ok Hdb round_robin urls fresh s'
           Hk Hrun).
Defined.


(** One URL, answered with the page of the specification, the storage
    working, and no file before the run. *)
Lemma main_stops_at_the_csv_witness :
  let net := net_page sample_page in
  let s := (scrape_multiple_urls net db_ok [0%nat] ["http://s/"] fresh).2 in
  new_scraper (Some "postgresql://db") [] = Ok fresh ∧
  read_urls ["http://s/"; ""] [] [] = (Ok ["http://s/"], [prompt; prompt]) ∧
  scrape_multiple_urls net db_ok [0%nat] ["http://s/"] fresh = (Some (Ok tt), s) ∧
  main_complete net db_ok plain_writerow plain_row_str [0%nat] (Some "postgresql://db") []
                ["http://s/"; ""] ∅ =
    Some (World ([prompt; prompt]
                 ++ ["Extracting data from " +:+ pretty (length ["http://s/"]) +:+ " URL(s)..."]
                 ++ display_lines s
                 ++ ["An error occurred: name 'csv' is not defined"])
                [] (<["scraped_data.csv" := ""]> ∅) false,
          Some s).
Proof.
  intros net s.
  assert (new_scraper (Some "postgresql://db") [] = Ok fresh) as Hs by reflexivity.
  assert (read_urls ["http://s/"; ""] [] [] = (Ok ["http://s/"], [prompt; prompt])) as Hu
    by reflexivity.
  assert (scrape_multiple_urls net db_ok [0%nat] ["http://s/"] fresh = (Some (Ok tt), s)) as Hr.
  { vm_compute. reflexivity. }
  split; [exact Hs|]. split; [exact Hu|]. split; [exact Hr|].
  apply (main_stops_at_the_csv net db_ok plain_writerow plain_row_str [0%nat]
           (Some "postgresql://db") [] ["http://s/"; ""] ∅ fresh ["http://s/"]
           [prompt; prompt] s Hs Hu Hr).
Defined.




(** Two URLs answered with the page of the specification, the second
    [insert_data] of the batch failing. *)
Lemma batch_aggregate_follows_storage_witness :
  let s' := (scrape_multiple_urls (net_page sample_page) db_second_fails round_robin
               ["http://s/"; "http://t/"] fresh).2 in
  has_keys (dom (results fresh)) ∧
  results s' !!! "Headings" =
    results fresh !!! "Headings"
    ++ contents_for "Headings" (drop (length (table fresh)) (table s')).
Proof.
  intros s'.
  assert (has_keys (dom (results fresh))) as Hk.
  { keys_by_computation. }
  split; [exact Hk|].
  apply (batch_aggregate_follows_storage (net_page sample_page) db_second_fails
           round_robin ["http://s/"; "http://t/"] fresh "Headings" Hk).
Defined.


